(** * Kraken: hash ring, health filters, scheduler reload, interval trap and
      simple store, embedded from the Go sources.

    Part I holds the embedding, one module per Go package or file; Part II
    holds the properties proved about it. *)

From stdpp Require Import gmap strings list fin_maps fin_sets sorting.
From Stdlib Require Import ZArith Lia.
From Stdlib Require Import Ascii.

Local Open Scope string_scope.
Local Open Scope list_scope.
Local Open Scope Z_scope.

#[local] Set Warnings "-clear-no-such-hyp".

(* ===================================================================== *)
(** * Part I: the embedding                                               *)
(* ===================================================================== *)

(** ** Go's machine integers and time values *)

Module Go.

(** [int] on the 64-bit targets Kraken is built for: two's complement, the
    arithmetic wraps around silently. *)
Definition intMin : Z := - 2 ^ 63.
Definition intMax : Z := 2 ^ 63 - 1.

Definition wrap (z : Z) : Z := (z + 2 ^ 63) mod 2 ^ 64 - 2 ^ 63.

Definition add (a b : Z) : Z := wrap (a + b).
Definition sub (a b : Z) : Z := wrap (a - b).
Definition neg (a : Z) : Z := wrap (- a).

Definition is_int (z : Z) : Prop := intMin <= z <= intMax.

(** [time.Time] as nanoseconds on an unbounded axis; [time.Duration] is an
    int64 count of nanoseconds. [Time.Sub] saturates at the ends of the
    Duration range, [Time.Add] and [Time.After] are exact. *)
Definition Second : Z := 1000000000.

Definition Time_Sub (t u : Z) : Z := Z.max intMin (Z.min intMax (t - u)).
Definition Time_Add (t d : Z) : Z := t + d.
Definition Time_After (t u : Z) : bool := u <? t.

End Go.

(** ** lib/healthcheck: the active filter's state (type [state]) *)

Module State.

Record FilterConfig := {
  Fails : Z;
  Passes : Z;
}.

Record state := {
  config : FilterConfig;
  all : gset string;
  healthy : gset string;
  trend : gmap string Z;
}.

Definition newState (c : FilterConfig) : state :=
  {| config := c; all := ∅; healthy := ∅; trend := ∅ |}.

(** Reading [s.trend[addr]]: a missing key reads as the zero value. *)
Definition trend_at (s : state) (addr : string) : Z :=
  default 0 (trend s !! addr).

Definition max (a b : Z) : Z := if b <? a then a else b.
Definition min (a b : Z) : Z := if a <? b then a else b.

(** First loop of [sync]: the body run for one [addr] of [addrs], on the
    pair ([s.all], [s.healthy]). *)
Definition sync_add (addr : string) (ah : gset string * gset string)
  : gset string * gset string :=
  if bool_decide (addr ∈ ah.1) then ah
  else ({[addr]} ∪ ah.1, {[addr]} ∪ ah.2).

(** Second loop of [sync]: the body run for one [addr] of [s.healthy], on
    the pair ([s.healthy], [s.trend]). *)
Definition sync_drop (addrs : gset string) (addr : string)
  (ht : gset string * gmap string Z) : gset string * gmap string Z :=
  if bool_decide (addr ∈ addrs) then ht
  else (ht.1 ∖ {[addr]}, delete addr ht.2).

Definition sync (s : state) (addrs : gset string) : state :=
  let ah := set_fold sync_add (all s, healthy s) addrs in
  let ht := set_fold (sync_drop addrs) (ah.2, trend s) ah.2 in
  {| config := config s; all := ah.1; healthy := ht.1; trend := ht.2 |}.

Definition failed (s : state) (addr : string) : state :=
  let t := max (min (Go.sub (trend_at s addr) 1) (-1))
               (Go.neg (Fails (config s))) in
  let tr := <[addr := t]> (trend s) in
  if default 0 (tr !! addr) =? Go.neg (Fails (config s))
  then {| config := config s; all := all s;
          healthy := healthy s ∖ {[addr]}; trend := tr |}
  else {| config := config s; all := all s;
          healthy := healthy s; trend := tr |}.

Definition passed (s : state) (addr : string) : state :=
  let t := min (max (Go.add (trend_at s addr) 1) 1) (Passes (config s)) in
  let tr := <[addr := t]> (trend s) in
  if default 0 (tr !! addr) =? Passes (config s)
  then {| config := config s; all := all s;
          healthy := {[addr]} ∪ healthy s; trend := tr |}
  else {| config := config s; all := all s;
          healthy := healthy s; trend := tr |}.

Definition getHealthy (s : state) : gset string := healthy s.

(** The calls a monitor makes on a [state], and their effect in order. *)
Inductive op :=
  | Sync (addrs : gset string)
  | Passed (addr : string)
  | Failed (addr : string).

Definition step (s : state) (o : op) : state :=
  match o with
  | Sync addrs => sync s addrs
  | Passed addr => passed s addr
  | Failed addr => failed s addr
  end.

Definition run (s : state) (ops : list op) : state := foldl step s ops.

(** What holds of every state reached from a new one: each trend lies
    between the two thresholds and a trend at [Passes] means healthy. *)
Definition trend_inv (s : state) : Prop :=
  ∀ a, (- Fails (config s) <= trend_at s a <= Passes (config s)) ∧
       (trend_at s a = Passes (config s) → a ∈ healthy s).

(** Whether every [passed] in [ops] is for an address of the latest [sync]
    before it, [cur] being the addresses of the last [sync] so far; and
    the addresses of the last [sync] at the end. *)
Fixpoint members_only (cur : gset string) (ops : list op) : bool :=
  match ops with
  | [] => true
  | Sync addrs :: rest => members_only addrs rest
  | Passed a :: rest => bool_decide (a ∈ cur) && members_only cur rest
  | Failed _ :: rest => members_only cur rest
  end.

Fixpoint last_sync (cur : gset string) (ops : list op) : gset string :=
  match ops with
  | [] => cur
  | Sync addrs :: rest => last_sync addrs rest
  | _ :: rest => last_sync cur rest
  end.

(** Whether, in [ops], the address [a] is kept by every [sync] and never
    fails [fails] times in a row; [cur] is the number of fails of [a] since
    its last pass. *)
Fixpoint steady (a : string) (fails : Z) (cur : Z) (ops : list op) : bool :=
  match ops with
  | [] => true
  | Failed b :: rest =>
      if bool_decide (b = a)
      then (cur + 1 <? fails) && steady a fails (cur + 1) rest
      else steady a fails cur rest
  | Passed b :: rest =>
      if bool_decide (b = a) then steady a fails 0 rest
      else steady a fails cur rest
  | Sync addrs :: rest => bool_decide (a ∈ addrs) && steady a fails cur rest
  end.

(** The state-filter scenario: [Fails=2], [Passes=2], one host ["h1"]. *)
Definition cfg22 : FilterConfig := {| Fails := 2; Passes := 2 |}.
Definition sc0 : state := sync (newState cfg22) {["h1"]}.
Definition sc1 : state := run sc0 [Passed "h1"; Passed "h1"].
Definition sc2 : state := run sc1 [Failed "h1"; Failed "h1"].
Definition sc3 : state := run sc2 [Passed "h1"; Passed "h1"].
Definition sc4 : state := sync sc3 {["h2"]}.

End State.

(** ** lib/healthcheck: the passive filter (type [passiveFilter]) *)

Module PassiveFilter.

Record PassiveFilterConfig := {
  Fails : Z;
  FailTimeout : Z;
}.

(** The clock [f.clk] is read once per call and handed in as [now]: calls
    hold the filter's lock and the mock clock does not move inside one. *)
Record passiveFilter := {
  config : PassiveFilterConfig;
  unhealthy : gmap string Z;
  failures : gmap string (list Z);
}.

(** [config.applyDefaults] is declared in a file of this package that is
    not among the sources at hand: the constructor applies it, whatever it
    makes of a config. *)
Class Defaults := {
  applyDefaults : PassiveFilterConfig → PassiveFilterConfig;
}.

Definition NewPassiveFilter `{Defaults} (c : PassiveFilterConfig)
  : passiveFilter :=
  {| config := applyDefaults c; unhealthy := ∅; failures := ∅ |}.

(** A filter that has recorded nothing yet and works with the config [c]:
    what the constructor returns when its defaults give [c]. *)
Definition configured (c : PassiveFilterConfig) : passiveFilter :=
  {| config := c; unhealthy := ∅; failures := ∅ |}.

(** Body of the loop of [Run] for one entry [(addr, t)] of [f.unhealthy],
    on the pair ([f.unhealthy], [healthy]). *)
Definition Run_entry (c : PassiveFilterConfig) (now : Z) (addr : string)
  (t : Z) (uh : gmap string Z * gset string) : gmap string Z * gset string :=
  if Go.Time_Sub now t >? FailTimeout c
  then (delete addr uh.1, uh.2)
  else (uh.1, uh.2 ∖ {[addr]}).

Definition Run (f : passiveFilter) (now : Z) (addrs : gset string)
  : passiveFilter * gset string :=
  let uh := map_fold (Run_entry (config f) now) (unhealthy f, addrs)
                     (unhealthy f) in
  ({| config := config f; unhealthy := uh.1; failures := failures f |}, uh.2).

(** The loop of [Failed] that pops the expired failures off the front. *)
Fixpoint pop_expired (c : PassiveFilterConfig) (now : Z) (fs : list Z)
  : list Z :=
  match fs with
  | [] => []
  | t :: rest =>
      if Go.Time_Sub now t >? FailTimeout c then pop_expired c now rest
      else fs
  end.

Definition Failed (f : passiveFilter) (now : Z) (addr : string)
  : passiveFilter :=
  let fs := default [] (failures f !! addr) in
  let fs := pop_expired (config f) now fs in
  let fs := fs ++ [now] in
  let unh := if Z.of_nat (length fs) >=? Fails (config f)
             then <[addr := now]> (unhealthy f) else unhealthy f in
  {| config := config f; unhealthy := unh;
     failures := <[addr := fs]> (failures f) |}.

(** Calls made on a filter, each with the clock reading it sees. *)
Inductive call :=
  | CallFailed (now : Z) (addr : string)
  | CallRun (now : Z) (addrs : gset string).

Definition exec1 (f : passiveFilter) (c : call) : passiveFilter :=
  match c with
  | CallFailed now addr => Failed f now addr
  | CallRun now addrs => (Run f now addrs).1
  end.

Definition exec (f : passiveFilter) (cs : list call) : passiveFilter :=
  foldl exec1 f cs.

(** How many of the calls report a failure of [a]. *)
Fixpoint reports (a : string) (cs : list call) : nat :=
  match cs with
  | [] => 0
  | CallFailed _ b :: rest =>
      ((if bool_decide (b = a) then 1 else 0) + reports a rest)%nat
  | CallRun _ _ :: rest => reports a rest
  end.

(** The clock reading a call was made at. *)
Definition call_time (c : call) : Z :=
  match c with
  | CallFailed now _ => now
  | CallRun now _ => now
  end.

(** [Failed] called for [a] at each of the times [ts], in order. *)
Definition Failed_at (f : passiveFilter) (a : string) (ts : list Z)
  : passiveFilter :=
  foldl (λ f t, Failed f t a) f ts.

(** The passive-filter scenario: [Fails=3], [FailTimeout=30s], ["h1"]
    reported failed at 0s, 1s and 2s. *)
Definition cfg3_30 : PassiveFilterConfig :=
  {| Fails := 3; FailTimeout := 30 * Go.Second |}.
Definition marked : passiveFilter :=
  exec (configured cfg3_30)
       [CallFailed 0 "h1"; CallFailed (1 * Go.Second) "h1";
        CallFailed (2 * Go.Second) "h1"].

(** A mark that is exactly [FailTimeout] old: [Fails=1], one failure at 0. *)
Definition cfg1_30 : PassiveFilterConfig :=
  {| Fails := 1; FailTimeout := 30 * Go.Second |}.
Definition marked_once : passiveFilter :=
  Failed (configured cfg1_30) 0 "h1".

(** Defaults to run the constructor with: a zero [Fails] becomes 3 and a
    zero [FailTimeout] five minutes, other values are kept. *)
Definition zero_defaults : Defaults :=
  {| applyDefaults := λ c,
       {| Fails := if Fails c =? 0 then 3 else Fails c;
          FailTimeout := if FailTimeout c =? 0 then 300 * Go.Second
                         else FailTimeout c |} |}.

(** The scenario again, on a filter made with [FailTimeout] left at zero. *)
Definition cfg3_0 : PassiveFilterConfig := {| Fails := 3; FailTimeout := 0 |}.
Definition marked_default : passiveFilter :=
  exec (@NewPassiveFilter zero_defaults cfg3_0)
       [CallFailed 0 "h1"; CallFailed (1 * Go.Second) "h1";
        CallFailed (2 * Go.Second) "h1"].

End PassiveFilter.

(** ** lib/hashring: the ring *)

Module hashring.

(** [hrw.RendezvousHashNode]; the ring reads its [Label] only. *)
Record RendezvousHashNode := {
  Label : string;
  Weight : Z;
}.

(** What the ring uses of [core.Digest] and of [lib/hrw], whose sources are
    not at hand: the shard key of a digest, and the nodes of a rendezvous
    hash in score order for a key, at most [n] of them. *)
Class Deps := {
  Digest : Type;
  ShardID : Digest → string;
  RendezvousHash : Type;
  GetOrderedNodes : RendezvousHash → string → Z → list RendezvousHashNode;
}.

Record Config := {
  MaxReplica : Z;
  RefreshInterval : Z;
}.

Record ring `{Deps} := {
  config : Config;
  addrs : gset string;
  hash : RendezvousHash;
  healthy : gset string;
}.

(** How a call ends: with a result, in [log.Fatal], or in the run-time
    panic of indexing an empty slice. *)
Inductive outcome :=
  | Return (locs : list string)
  | Fatal (msg : string)
  | Panic.

(** The [for] loop of [Locations], from index [i] on: [nodes] are the nodes
    at indices [i], [i+1], ... *)
Fixpoint Locations_loop (maxReplica : Z) (healthy : gset string)
  (nodes : list RendezvousHashNode) (i : Z) (locs : list string)
  : list string :=
  match nodes with
  | [] => locs
  | n :: rest =>
      if (Z.of_nat (length locs) =? 0) || (i <? maxReplica)
      then Locations_loop maxReplica healthy rest (i + 1)
             (if bool_decide (Label n ∈ healthy) then locs ++ [Label n]
              else locs)
      else locs
  end.

Definition Locations `{Deps} (r : ring) (d : Digest) : outcome :=
  let nodes := GetOrderedNodes (hash r) (ShardID d)
                               (Z.of_nat (size (addrs r))) in
  if negb (Z.of_nat (length nodes) =? Z.of_nat (size (addrs r)))
  then Fatal "invariant violation: ordered hash nodes not equal to cluster size"
  else if Z.of_nat (size (healthy r)) =? 0
  then match nodes with
       | n :: _ => Return [Label n]
       | [] => Panic
       end
  else Return (Locations_loop (MaxReplica (config r)) (healthy r) nodes 0 []).

Definition Contains `{Deps} (r : ring) (addr : string) : bool :=
  bool_decide (addr ∈ addrs r).

(** The healthy ones of a list of labels, in the list's order. *)
Definition healthy_of (hs : gset string) (labels : list string)
  : list string :=
  filter (λ a, a ∈ hs) labels.

(** What [Refresh] uses of [lib/hrw] to build a hash: the empty hash (of
    [Murmur3Hash] and [UInt64ToFloat64]) and the hash with one more node. *)
Class Builder `{Deps} := {
  NewRendezvousHash : RendezvousHash;
  AddNode : RendezvousHash → string → Z → RendezvousHash;
}.

Definition _defaultWeight : Z := 100.

(** [Refresh], given what [r.cluster.Resolve()] and [r.filter.Run(latest)]
    return in this call. The ring's watchers are handed in as a list; the
    second component lists the [Notify] calls made, in order. *)
Definition Refresh `{Builder} {W : Type} (r : ring) (watchers : list W)
  (latest healthy : gset string) : ring * list (W * gset string) :=
  if bool_decide (addrs r = latest)
  then ({| config := config r; addrs := latest; hash := hash r;
           healthy := healthy |}, [])
  else ({| config := config r; addrs := latest;
           hash := set_fold (λ addr h, AddNode h addr _defaultWeight)
                            NewRendezvousHash latest;
           healthy := healthy |},
        (λ w, (w, latest)) <$> watchers).

(** A ring to run [Locations] on: the hash is the list of its nodes already
    in the order of one key, digests are their own shard key. *)
Definition list_deps : Deps :=
  {| Digest := string;
     ShardID := λ d, d;
     RendezvousHash := list RendezvousHashNode;
     GetOrderedNodes := λ h _ n, take (Z.to_nat n) h |}.

Definition node (l : string) : RendezvousHashNode :=
  {| Label := l; Weight := 100 |}.

Definition list_builder : @Builder list_deps :=
  {| NewRendezvousHash := ([] : @RendezvousHash list_deps);
     AddNode := λ h l w, h ++ [{| Label := l; Weight := w |}] |}.

(** The ring [ring0] below, refreshed with three hosts through the passive
    filter of the scenario, 3s after its start. *)
Definition refreshed3 (r : @ring list_deps) : @ring list_deps :=
  (@Refresh list_deps list_builder nat r [7%nat] {["h1"; "h2"; "h3"]}
     (PassiveFilter.Run PassiveFilter.marked (3 * Go.Second)
        {["h1"; "h2"; "h3"]}).2).1.

Definition ring0 : @ring list_deps :=
  @Build_ring list_deps
    {| MaxReplica := 2; RefreshInterval := 10 * Go.Second |} ∅ [] ∅.

Definition ring3 (hs : gset string) : @ring list_deps :=
  @Build_ring list_deps
    {| MaxReplica := 2; RefreshInterval := 10 * Go.Second |}
    {["h1"; "h2"; "h3"]}
    [node "h2"; node "h3"; node "h1"]
    hs.

End hashring.

(** ** utils/dedup: the interval trap *)

Module dedup.

(** The trap's own fields; its clock and its task are the environment. *)
Record IntervalTrap := {
  interval : Z;
  prev : Z;
}.

Definition NewIntervalTrap (interval : Z) (now : Z) : IntervalTrap :=
  {| interval := interval; prev := now |}.

Definition ready (t : IntervalTrap) (now : Z) : bool :=
  Go.Time_After now (Go.Time_Add (prev t) (interval t)).

(** The clock readings one [Trap] call can take, in order: in [ready] under
    the read lock, in [ready] under the write lock, and after the task. *)
Record readings := {
  at_check : Z;
  at_recheck : Z;
  at_done : Z;
}.

(** One run of the task: the reading at which the gate let it through and
    the reading taken once it had returned. *)
Record task_run := {
  started : Z;
  finished : Z;
}.

(** [Trap], with the runs of [t.task] appended to a log. *)
Definition Trap (t : IntervalTrap) (c : readings) (log : list task_run)
  : IntervalTrap * list task_run :=
  if negb (ready t (at_check c)) then (t, log)
  else if negb (ready t (at_recheck c)) then (t, log)
  else ({| interval := interval t; prev := at_done c |},
        log ++ [{| started := at_recheck c; finished := at_done c |}]).

Definition Traps (t : IntervalTrap) (cs : list readings) (log : list task_run)
  : IntervalTrap * list task_run :=
  foldl (λ tl c, Trap tl.1 c tl.2) (t, log) cs.

(** A log in which every run started more than [i] after the run before it
    had finished, the first one more than [i] after [p]. *)
Fixpoint spaced (i : Z) (p : Z) (log : list task_run) : Prop :=
  match log with
  | [] => True
  | r :: rest => p + i < started r ∧ spaced i (finished r) rest
  end.

Definition last_finished (p : Z) (log : list task_run) : Z :=
  default p (finished <$> last log).

(** Four calls on a trap of interval 10 made at time 0. *)
Definition four_calls : list readings :=
  [ {| at_check := 5; at_recheck := 5; at_done := 5 |};
    {| at_check := 11; at_recheck := 12; at_done := 20 |};
    {| at_check := 25; at_recheck := 25; at_done := 25 |};
    {| at_check := 31; at_recheck := 31; at_done := 40 |} ].

End dedup.

(** ** lib/torrent/scheduler: reloading the scheduler *)

Module scheduler.

(** What reload.go takes from the rest of the package, whose sources are
    not at hand: the types it passes around, the constructor
    [newScheduler] and the method [start], each with whatever result they
    give. [Stop] returns nothing. *)
Class Env := {
  Config : Type;
  TorrentArchive : Type;
  Stats : Type;
  PeerContext : Type;
  AnnounceClient : Type;
  NetEvents : Type;
  Queue : Type;
  scheduler : Type;
  torrentArchive : scheduler → TorrentArchive;
  stats : scheduler → Stats;
  pctx : scheduler → PeerContext;
  announceClient : scheduler → AnnounceClient;
  netevents : scheduler → NetEvents;
  error : Type;
  newScheduler : Config → TorrentArchive → Stats → PeerContext →
                 AnnounceClient → NetEvents → error + scheduler;
  start : scheduler → Queue → option error;
}.

(** Errors built by [fmt.Errorf] around the error of a callee. *)
Inductive wrapped `{Env} :=
  | Errorf (format : string) (err : error).

(** [embedded] is the embedded [*scheduler]. [aq] is a Go closure; its
    [k]-th call in the life of the process returns [aq k]. The mutex [mu]
    shows in the trace only. *)
Record reloadableScheduler `{Env} := {
  embedded : scheduler;
  aq : nat → Queue;
}.

Inductive event `{Env} :=
  | EvLock
  | EvUnlock
  | EvStop (s : scheduler)
  | EvNewScheduler (config : Config) (ta : TorrentArchive) (st : Stats)
      (pc : PeerContext) (ac : AnnounceClient) (ne : NetEvents)
  | EvAq (q : Queue)
  | EvStart (s : scheduler) (q : Queue)
  | EvFatalf (format : string) (err : wrapped).

Record world `{Env} := {
  trace : list event;
  aq_calls : nat;
}.

(** Computations that act on the world. *)
Definition M `{Env} (A : Type) : Type := world → A * world.

#[global] Instance M_ret `{Env} : MRet M := λ A a w, (a, w).
#[global] Instance M_bind `{Env} : MBind M :=
  λ A B k m w, let r := m w in k r.1 r.2.
Definition emit `{Env} (e : event) : M unit :=
  λ w, (tt, {| trace := trace w ++ [e]; aq_calls := aq_calls w |}).
Definition call_aq `{Env} (rs : reloadableScheduler) : M Queue :=
  λ w, (aq rs (aq_calls w),
        {| trace := trace w ++ [EvAq (aq rs (aq_calls w))];
           aq_calls := S (aq_calls w) |}).

Definition makeReloadable `{Env} (s : scheduler) (aq : nat → Queue)
  : reloadableScheduler :=
  {| embedded := s; aq := aq |}.

(** [reload]: the deferred [Unlock] runs on each way out. *)
Definition reload `{Env} (rs : reloadableScheduler) (config : Config)
  : M (option wrapped * reloadableScheduler) :=
  emit EvLock;;
  let s := embedded rs in
  emit (EvStop s);;
  emit (EvNewScheduler config (torrentArchive s) (stats s) (pctx s)
                       (announceClient s) (netevents s));;
  match newScheduler config (torrentArchive s) (stats s) (pctx s)
                     (announceClient s) (netevents s) with
  | inl err =>
      emit EvUnlock;;
      mret (Some (Errorf "create new scheduler: %s" err), rs)
  | inr n =>
      let rs := {| embedded := n; aq := aq rs |} in
      q ← call_aq rs;
      emit (EvStart n q);;
      match start n q with
      | Some err =>
          emit EvUnlock;;
          mret (Some (Errorf "start new scheduler: %s" err), rs)
      | None =>
          emit EvUnlock;;
          mret (None, rs)
      end
  end.

(** How [Reload] ends: it returns, or [log.Fatalf] ends the process. *)
Inductive ending :=
  | Returned
  | Exited.

Definition Reload `{Env} (rs : reloadableScheduler) (config : Config)
  : M (ending * reloadableScheduler) :=
  r ← reload rs config;
  match r.1 with
  | Some err =>
      emit (EvFatalf "Failed to reload scheduler config: %s" err);;
      mret (Exited, r.2)
  | None => mret (Returned, r.2)
  end.

(** A caller that reloads with one config after the other, as long as the
    process lives. *)
Fixpoint Reloads `{Env} (rs : reloadableScheduler) (configs : list Config)
  : M (ending * reloadableScheduler) :=
  match configs with
  | [] => mret (Returned, rs)
  | c :: rest =>
      r ← Reload rs c;
      match r.1 with
      | Exited => mret r
      | Returned => Reloads r.2 rest
      end
  end.

(** Events that neither stop nor start a scheduler. *)
Definition quiet `{Env} (e : event) : Prop :=
  match e with
  | EvStop _ | EvStart _ _ => False
  | _ => True
  end.

(** [handover cur tr out]: along the trace [tr], beginning with the
    scheduler [cur] running (if any) and ending with [out], a scheduler is
    started only while none runs and the one stopped is the one running. *)
Inductive handover `{Env}
  : option scheduler → list event → option scheduler → Prop :=
  | handover_nil cur : handover cur [] cur
  | handover_stop s tr out :
      handover None tr out → handover (Some s) (EvStop s :: tr) out
  | handover_start n q tr out :
      handover (Some n) tr out → handover None (EvStart n q :: tr) out
  | handover_quiet cur e tr out :
      quiet e → handover cur tr out → handover cur (e :: tr) out.

(** An environment to run [Reload] in: configurations are pipeline limits,
    a limit of 0 is refused by the constructor and a scheduler built with
    a limit above 100 does not start. *)
Record toy_scheduler := {
  toy_limit : Z;
  toy_archive : string;
  toy_peer : string;
}.

Definition toy_env : Env :=
  {| Config := Z;
     TorrentArchive := string;
     Stats := unit;
     PeerContext := string;
     AnnounceClient := unit;
     NetEvents := unit;
     Queue := nat;
     scheduler := toy_scheduler;
     torrentArchive := toy_archive;
     stats := λ _, tt;
     pctx := toy_peer;
     announceClient := λ _, tt;
     netevents := λ _, tt;
     error := string;
     newScheduler := λ c ta _ pc _ _,
       if c =? 0 then inl "invalid config"
       else inr {| toy_limit := c; toy_archive := ta; toy_peer := pc |};
     start := λ s _, if 100 <? toy_limit s then Some "listen" else None |}.

Definition toy_sched (limit : Z) : @scheduler toy_env :=
  {| toy_limit := limit; toy_archive := "archive"; toy_peer := "peer" |}.

Definition toy_rs : @reloadableScheduler toy_env :=
  @makeReloadable toy_env (toy_sched 3) (λ k, k).

Definition toy_world : @world toy_env := {| trace := []; aq_calls := 1 |}.

Definition toy_trace : list (@event toy_env) :=
  [ @EvLock toy_env;
    @EvStop toy_env (toy_sched 3);
    @EvNewScheduler toy_env 5 "archive" tt "peer" tt tt;
    @EvAq toy_env 1%nat;
    @EvStart toy_env (toy_sched 5) 1%nat;
    @EvUnlock toy_env ].

End scheduler.

(** ** lib/store: the simple store *)

Module store.

(** The file operations [SimpleStore] is built on ([uploadStore],
    [cacheStore], [base.FileOp], [io.Copy], [os.IsExist]), whose sources are
    not at hand. [disk] is the state of the two directories; an operation
    returns its Go results and the disk it leaves. *)
Class FileOps := {
  disk : Type;
  error : Type;
  reader : Type;
  readwriter : Type;
  IsExist : error → bool;
  CreateUploadFile : string → Z → disk → option error * disk;
  DeleteUploadFile : string → disk → option error * disk;
  GetUploadFileReadWriter : string → disk → (error + readwriter) * disk;
  Close : readwriter → disk → option error * disk;
  Copy : readwriter → reader → disk → (Z * option error) * disk;
  GetFilePath : string → disk → error + string;
  MoveFileFrom : string → string → disk → option error * disk;
}.

(** Go [error] values seen by the callers: an error of a file operation
    handed on as it is, or one made by [fmt.Errorf] from it. *)
Inductive result_error `{FileOps} :=
  | Plain (err : error)
  | Errorf (format : string) (err : error).

(** [MoveUploadFileToCache]: the deferred [DeleteUploadFile] runs after the
    result of [MoveFileFrom] is fixed, and its own result is dropped. *)
Definition MoveUploadFileToCache `{FileOps} (uploadName cacheName : string)
  (d : disk) : option error * disk :=
  match GetFilePath uploadName d with
  | inl err => (Some err, d)
  | inr uploadPath =>
      let r := MoveFileFrom cacheName uploadPath d in
      (r.1, (DeleteUploadFile uploadName r.2).2)
  end.

(** The two deferred calls of [CreateCacheFile], in the order they run. *)
Definition close_and_delete `{FileOps} (w : readwriter) (tmp : string)
  (d : disk) : disk :=
  (DeleteUploadFile tmp (Close w d).2).2.

(** [CreateCacheFile]; [uuid] is the string [uuid.Generate().String()]
    gives in this call. *)
Definition CreateCacheFile `{FileOps} (name : string) (r : reader)
  (uuid : string) (d : disk) : option result_error * disk :=
  let tmp := name +:+ "." +:+ uuid in
  let c := CreateUploadFile tmp 0 d in
  match c.1 with
  | Some err => (Some (Errorf "create upload file: %s" err), c.2)
  | None =>
      let g := GetUploadFileReadWriter tmp c.2 in
      match g.1 with
      | inl err =>
          (Some (Errorf "get upload writer: %s" err),
           (DeleteUploadFile tmp g.2).2)
      | inr w =>
          let cp := Copy w r g.2 in
          match cp.1.2 with
          | Some err =>
              (Some (Errorf "copy: %s" err), close_and_delete w tmp cp.2)
          | None =>
              let mv := MoveUploadFileToCache tmp name cp.2 in
              match mv.1 with
              | Some err =>
                  if negb (IsExist err)
                  then (Some (Errorf "move upload file to cache: %s" err),
                        close_and_delete w tmp mv.2)
                  else (None, close_and_delete w tmp mv.2)
              | None => (None, close_and_delete w tmp mv.2)
              end
          end
      end
  end.

(** The calls of [CreateCacheFile] up to the commit go through on [d], and
    the commit itself succeeds or reports that the cache file exists. *)
Definition commits_or_exists `{FileOps} (name : string) (r : reader)
  (uuid : string) (d : disk) : Prop :=
  let tmp := name +:+ "." +:+ uuid in
  ∃ d1 w d2 n d3 d4 res,
    CreateUploadFile tmp 0 d = (None, d1) ∧
    GetUploadFileReadWriter tmp d1 = (inr w, d2) ∧
    Copy w r d2 = ((n, None), d3) ∧
    MoveUploadFileToCache tmp name d3 = (res, d4) ∧
    match res with
    | Some err => IsExist err = true
    | None => True
    end.

(** The temporary upload file of a call can be created, opened, written
    and found again on [d]. *)
Definition uploads_ok `{FileOps} (name : string) (r : reader)
  (uuid : string) (d : disk) : Prop :=
  let tmp := name +:+ "." +:+ uuid in
  ∃ d1 w d2 n d3 path,
    CreateUploadFile tmp 0 d = (None, d1) ∧
    GetUploadFileReadWriter tmp d1 = (inr w, d2) ∧
    Copy w r d2 = ((n, None), d3) ∧
    GetFilePath tmp d3 = inr path.

(** What the store relies on from the file operations, with [cached c d]
    for "the cache of [d] has a file named [c]": a move onto a cached name
    is refused with an error that [os.IsExist] accepts; after a move that
    succeeded or was so refused the name is cached; a missing upload path
    is not reported as already existing; and the operations on upload
    files, like a move for another or the same name, remove no cache
    file. *)
Record CacheContract `{FileOps} (cached : string → disk → Prop) : Prop := {
  move_exists : ∀ c p d,
    cached c d →
    ∃ e, (MoveFileFrom c p d).1 = Some e ∧ IsExist e = true;
  move_cached : ∀ c p d,
    (MoveFileFrom c p d).1 = None ∨
    (∃ e, (MoveFileFrom c p d).1 = Some e ∧ IsExist e = true) →
    cached c (MoveFileFrom c p d).2;
  path_error : ∀ n d e, GetFilePath n d = inl e → IsExist e = false;
  keep_create : ∀ c n l d, cached c d → cached c (CreateUploadFile n l d).2;
  keep_delete : ∀ c n d, cached c d → cached c (DeleteUploadFile n d).2;
  keep_open : ∀ c n d,
    cached c d → cached c (GetUploadFileReadWriter n d).2;
  keep_close : ∀ c w d, cached c d → cached c (Close w d).2;
  keep_copy : ∀ c w r d, cached c d → cached c (Copy w r d).2;
}.

(** A disk in memory to run the store on: two maps from file names to
    contents, paths are names, a move onto an existing cache file is
    refused with [EEXIST]. *)
Inductive mem_error :=
  | EEXIST
  | ENOENT.

Record mem_disk := {
  upload : gmap string string;
  cache : gmap string string;
}.

Definition mem_ops : FileOps :=
  {| disk := mem_disk;
     error := mem_error;
     reader := string;
     readwriter := string;
     IsExist := λ e, match e with EEXIST => true | ENOENT => false end;
     CreateUploadFile := λ name _ d,
       match upload d !! name with
       | Some _ => (Some EEXIST, d)
       | None => (None, {| upload := <[name := ""]> (upload d);
                           cache := cache d |})
       end;
     DeleteUploadFile := λ name d,
       match upload d !! name with
       | Some _ => (None, {| upload := delete name (upload d);
                             cache := cache d |})
       | None => (Some ENOENT, d)
       end;
     GetUploadFileReadWriter := λ name d,
       match upload d !! name with
       | Some _ => (inr name, d)
       | None => (inl ENOENT, d)
       end;
     Close := λ _ d, (None, d);
     Copy := λ w r d,
       match upload d !! w with
       | Some old => ((Z.of_nat (String.length r), None),
                      {| upload := <[w := old +:+ r]> (upload d);
                         cache := cache d |})
       | None => ((0, Some ENOENT), d)
       end;
     GetFilePath := λ name d,
       match upload d !! name with
       | Some _ => inr name
       | None => inl ENOENT
       end;
     MoveFileFrom := λ cacheName uploadPath d,
       match cache d !! cacheName, upload d !! uploadPath with
       | Some _, _ => (Some EEXIST, d)
       | None, Some content =>
           (None, {| upload := delete uploadPath (upload d);
                     cache := <[cacheName := content]> (cache d) |})
       | None, None => (Some ENOENT, d)
       end |}.

Definition mem_empty : @disk mem_ops := {| upload := ∅; cache := ∅ |}.

Definition mem_cached (c : string) (d : mem_disk) : Prop :=
  is_Some (cache d !! c).

Definition mem_once : @disk mem_ops :=
  (@CreateCacheFile mem_ops "blob" "data" "u1" mem_empty).2.

End store.

(** ** agent/agentserver: the preload handler *)

Module agentserver.

(** [strings.Split(s, sep)] for a separator of one byte: the pieces of [s]
    between the separators, one more piece than separators. *)
Fixpoint Split (s : string) (sep : ascii) : list string :=
  match s with
  | String.EmptyString => [""]
  | String.String c rest =>
      if Ascii.eqb c sep then "" :: Split rest sep
      else match Split rest sep with
           | p :: ps => String.String c p :: ps
           | [] => [String.String c ""]
           end
  end.

(** How often [c] occurs in [s]. *)
Fixpoint occurrences (c : ascii) (s : string) : nat :=
  match s with
  | String.EmptyString => 0
  | String.String x rest => (if Ascii.eqb x c then 1 else 0) + occurrences c rest
  end.

(** What the handler uses of the docker client, whose source is not at
    hand: [PullImage(ctx, repo, tag)] and its error. *)
Class Docker := {
  error : Type;
  PullImage : string → string → option error;
}.

(** The errors a handler returns: one handed on from a callee, or one made
    by [handler.Errorf] from a format and, where it has one, an error. *)
Inductive handler_error `{Docker} :=
  | Plain (err : error)
  | Errorf (format : string) (arg : option error).

(** [preloadTagHandler], given what [httputil.ParseParam(r, "tag")]
    returned; the second component lists the images [PullImage] was called
    for. *)
Definition preloadTagHandler `{Docker} (param : error + string)
  : option handler_error * list (string * string) :=
  match param with
  | inl err => (Some (Plain err), [])
  | inr tag =>
      match Split tag ":" with
      | [repo; tag] =>
          match PullImage repo tag with
          | Some err =>
              (Some (Errorf "trigger docker pull: %s" (Some err)),
               [(repo, tag)])
          | None => (None, [(repo, tag)])
          end
      | _ => (Some (Errorf "failed to parse docker image tag" None), [])
      end
  end.

(** A docker client that pulls everything but the repository ["broken"]. *)
Definition pulls : Docker :=
  {| error := string;
     PullImage := λ repo _,
       if String.eqb repo "broken" then Some "no such image" else None |}.

End agentserver.

(* ===================================================================== *)
(** * Part II: properties                                                 *)
(* ===================================================================== *)

Section go_int.

Lemma wrap_id z : Go.is_int z → Go.wrap z = z.
Proof.
  unfold Go.is_int, Go.intMin, Go.intMax, Go.wrap. intros H.
  rewrite Z.mod_small; lia.
Qed.

Lemma wrap_is_int z : Go.is_int (Go.wrap z).
Proof.
  unfold Go.is_int, Go.intMin, Go.intMax, Go.wrap.
  pose proof (Z.mod_pos_bound (z + 2 ^ 63) (2 ^ 64) ltac:(lia)). lia.
Qed.

End go_int.

(** ** The active filter's state *)

Section state_props.
Import State.

Lemma max_Zmax a b : State.max a b = Z.max a b.
Proof. unfold State.max. destruct (Z.ltb_spec b a); lia. Qed.

Lemma min_Zmin a b : State.min a b = Z.min a b.
Proof. unfold State.min. destruct (Z.ltb_spec a b); lia. Qed.

Ltac zcases := rewrite ?max_Zmax, ?min_Zmin; lia.

Lemma sync_add_fold (A H X : gset string) :
  set_fold sync_add (A, H) X = (A ∪ X, H ∪ (X ∖ A)).
Proof.
  refine (set_fold_ind_L (λ r (Y : gset string), r = (A ∪ Y, H ∪ (Y ∖ A)))
            sync_add (A, H) _ _ X).
  - f_equal; set_solver.
  - intros x Y r Hx ->. unfold sync_add; simpl.
    case_bool_decide; f_equal; set_solver.
Qed.

Lemma sync_drop_fold (addrs H : gset string) (T : gmap string Z) X :
  (set_fold (sync_drop addrs) (H, T) X).1 = H ∖ (X ∖ addrs) ∧
  ∀ a, (set_fold (sync_drop addrs) (H, T) X).2 !! a =
       if bool_decide (a ∈ X ∖ addrs) then None else T !! a.
Proof.
  refine (set_fold_ind_L (λ r (Y : gset string), r.1 = H ∖ (Y ∖ addrs) ∧
    ∀ a, r.2 !! a = if bool_decide (a ∈ Y ∖ addrs) then None else T !! a)
    (sync_drop addrs) (H, T) _ _ X).
  - simpl. split; [set_solver|]. intros a.
    by rewrite bool_decide_eq_false_2 by set_solver.
  - intros x Y [h t] Hx [Hh Ht]; simpl in *. unfold sync_drop; simpl.
    case_bool_decide as Hin; simpl.
    + split; [set_solver|]. intros a. rewrite Ht.
      repeat case_bool_decide; set_solver.
    + split; [set_solver|]. intros a.
      destruct (decide (a = x)) as [->|Hne].
      * rewrite lookup_delete_eq.
        by rewrite bool_decide_eq_true_2 by set_solver.
      * rewrite lookup_delete_ne by done. rewrite Ht.
        repeat case_bool_decide; set_solver.
Qed.

Lemma sync_config s addrs : config (sync s addrs) = config s.
Proof. done. Qed.

Lemma sync_all s addrs : all (sync s addrs) = all s ∪ addrs.
Proof. unfold sync; simpl. by rewrite sync_add_fold. Qed.

Lemma sync_healthy s addrs :
  healthy (sync s addrs) = (healthy s ∪ (addrs ∖ all s)) ∩ addrs.
Proof.
  unfold sync; simpl. rewrite sync_add_fold; simpl.
  destruct (sync_drop_fold addrs (healthy s ∪ addrs ∖ all s) (trend s)
              (healthy s ∪ addrs ∖ all s)) as [Hh _].
  rewrite Hh. clear Hh. apply set_eq; intros x.
  destruct (decide (x ∈ addrs)); set_solver.
Qed.

Lemma sync_trend s addrs a :
  trend (sync s addrs) !! a =
  if bool_decide (a ∈ healthy s ∧ a ∉ addrs) then None else trend s !! a.
Proof.
  unfold sync; simpl. rewrite sync_add_fold; simpl.
  destruct (sync_drop_fold addrs (healthy s ∪ addrs ∖ all s) (trend s)
              (healthy s ∪ addrs ∖ all s)) as [_ Ht].
  rewrite Ht. repeat case_bool_decide; set_solver.
Qed.

Lemma failed_trend_eq s a :
  trend_at (failed s a) a =
  State.max (State.min (Go.sub (trend_at s a) 1) (-1)) (Go.neg (Fails (config s))).
Proof.
  unfold failed, trend_at. rewrite !lookup_insert_eq; simpl.
  case_match; simpl; by rewrite lookup_insert_eq.
Qed.

Lemma failed_trend_ne s a b : a ≠ b → trend_at (failed s a) b = trend_at s b.
Proof.
  intros Hne. unfold failed, trend_at.
  case_match; simpl; by rewrite lookup_insert_ne.
Qed.

Lemma failed_config s a : config (failed s a) = config s.
Proof. unfold failed. by case_match. Qed.

Lemma failed_all s a : all (failed s a) = all s.
Proof. unfold failed. by case_match. Qed.

Lemma failed_healthy s a :
  healthy (failed s a) =
  if trend_at (failed s a) a =? Go.neg (Fails (config s))
  then healthy s ∖ {[a]} else healthy s.
Proof.
  rewrite failed_trend_eq. unfold failed, trend_at.
  rewrite lookup_insert_eq; simpl. by case_match.
Qed.

Lemma passed_trend_eq s a :
  trend_at (passed s a) a =
  State.min (State.max (Go.add (trend_at s a) 1) 1) (Passes (config s)).
Proof.
  unfold passed, trend_at. rewrite !lookup_insert_eq; simpl.
  case_match; simpl; by rewrite lookup_insert_eq.
Qed.

Lemma passed_trend_ne s a b : a ≠ b → trend_at (passed s a) b = trend_at s b.
Proof.
  intros Hne. unfold passed, trend_at.
  case_match; simpl; by rewrite lookup_insert_ne.
Qed.

Lemma passed_config s a : config (passed s a) = config s.
Proof. unfold passed. by case_match. Qed.

Lemma passed_all s a : all (passed s a) = all s.
Proof. unfold passed. by case_match. Qed.

Lemma passed_healthy s a :
  healthy (passed s a) =
  if trend_at (passed s a) a =? Passes (config s)
  then {[a]} ∪ healthy s else healthy s.
Proof.
  rewrite passed_trend_eq. unfold passed, trend_at.
  rewrite lookup_insert_eq; simpl. by case_match.
Qed.

Lemma neg_config_Fails c :
  1 <= Fails c <= Go.intMax → Go.neg (Fails c) = - Fails c.
Proof.
  intros H. apply wrap_id. unfold Go.is_int, Go.intMin, Go.intMax in *. lia.
Qed.

Lemma failed_range s a :
  1 <= Fails (config s) <= Go.intMax →
  - Fails (config s) <= trend_at (failed s a) a <= -1.
Proof.
  intros H. rewrite failed_trend_eq, neg_config_Fails by done. zcases.
Qed.

Lemma passed_range s a :
  1 <= Passes (config s) →
  1 <= trend_at (passed s a) a <= Passes (config s).
Proof. intros H. rewrite passed_trend_eq. zcases. Qed.

Lemma run_cons s o ops : run s (o :: ops) = run (step s o) ops.
Proof. done. Qed.

Lemma run_app s ops1 ops2 : run s (ops1 ++ ops2) = run (run s ops1) ops2.
Proof. apply foldl_app. Qed.

Lemma step_config s o : config (step s o) = config s.
Proof.
  destruct o; simpl; auto using sync_config, passed_config, failed_config.
Qed.

Lemma run_config s ops : config (run s ops) = config s.
Proof.
  revert s. induction ops as [|o ops IH]; intros s; [done|].
  by rewrite run_cons, IH, step_config.
Qed.

Lemma trend_inv_new c : 1 <= Fails c → 1 <= Passes c → trend_inv (newState c).
Proof.
  intros HF HP a. unfold trend_at; simpl. rewrite lookup_empty; simpl.
  split; lia.
Qed.

Lemma trend_inv_step s o :
  1 <= Fails (config s) <= Go.intMax → 1 <= Passes (config s) →
  trend_inv s → trend_inv (step s o).
Proof.
  intros HF HP Hinv b. rewrite step_config.
  destruct (Hinv b) as [Hb Hh]. destruct o as [addrs|a|a]; cbn [step].
  - assert (trend_at (sync s addrs) b =
            if bool_decide (b ∈ healthy s ∧ b ∉ addrs) then 0
            else trend_at s b) as Ht.
    { unfold trend_at. rewrite sync_trend. by case_bool_decide. }
    rewrite Ht. case_bool_decide as Hd.
    + split; [lia|]. intros; lia.
    + split; [done|]. intros Hp. specialize (Hh Hp). rewrite sync_healthy.
      destruct (decide (b ∈ addrs)); set_solver.
  - destruct (decide (a = b)) as [->|Hne].
    + pose proof (passed_range s b HP) as Hr. split; [lia|].
      intros Hp. rewrite passed_healthy, Hp, Z.eqb_refl. set_solver.
    + rewrite passed_trend_ne by done. split; [done|].
      intros Hp. rewrite passed_healthy. case_match; set_solver.
  - destruct (decide (a = b)) as [->|Hne].
    + pose proof (failed_range s b HF) as Hr. split; [lia|]. intros; lia.
    + rewrite failed_trend_ne by done. split; [done|].
      intros Hp. rewrite failed_healthy. case_match; set_solver.
Qed.

Lemma trend_inv_run s ops :
  1 <= Fails (config s) <= Go.intMax → 1 <= Passes (config s) →
  trend_inv s → trend_inv (run s ops).
Proof.
  revert s. induction ops as [|o ops IH]; intros s HF HP Hinv; [done|].
  rewrite run_cons. apply IH; rewrite ?step_config; auto using trend_inv_step.
Qed.

Lemma passes_from_pos (a : string) (k : nat) : ∀ s,
  1 <= Passes (config s) < Go.intMax →
  1 <= trend_at s a <= Passes (config s) →
  trend_at (run s (replicate k (Passed a))) a
    = Z.min (trend_at s a + Z.of_nat k) (Passes (config s)) ∧
  (a ∈ healthy (run s (replicate k (Passed a))) ↔
   a ∈ healthy s ∨ ((0 < k)%nat ∧ Passes (config s) <= trend_at s a + Z.of_nat k)).
Proof.
  induction k as [|k IH]; intros s HP Ht.
  - unfold run; simpl. split; [lia|]. split; [by left|].
    intros [?|[? _]]; [done|lia].
  - cbn [replicate]. rewrite run_cons. cbn [step].
    assert (trend_at (passed s a) a
            = Z.min (trend_at s a + 1) (Passes (config s))) as Ht1.
    { rewrite passed_trend_eq. unfold Go.add.
      rewrite wrap_id by (unfold Go.is_int, Go.intMin, Go.intMax in *; lia).
      zcases. }
    destruct (IH (passed s a)) as [IHt IHh];
      rewrite ?passed_config; [done|lia|].
    rewrite passed_config in *. rewrite IHt, IHh, Ht1. split; [lia|].
    rewrite passed_healthy, Ht1.
    destruct (Z.eqb_spec (Z.min (trend_at s a + 1) (Passes (config s)))
                         (Passes (config s))); set_solver by lia.
Qed.

Lemma fails_from_neg (a : string) (k : nat) : ∀ s,
  1 <= Fails (config s) <= Go.intMax →
  - Fails (config s) <= trend_at s a <= -1 →
  trend_at (run s (replicate k (Failed a))) a
    = Z.max (trend_at s a - Z.of_nat k) (- Fails (config s)) ∧
  (a ∈ healthy (run s (replicate k (Failed a))) ↔
   a ∈ healthy s ∧ ¬ ((0 < k)%nat ∧ trend_at s a - Z.of_nat k <= - Fails (config s))).
Proof.
  induction k as [|k IH]; intros s HF Ht.
  - unfold run; simpl. split; [lia|]. split; [|tauto].
    intros ?; split; [done|lia].
  - cbn [replicate]. rewrite run_cons. cbn [step].
    assert (trend_at (failed s a) a
            = Z.max (trend_at s a - 1) (- Fails (config s))) as Ht1.
    { rewrite failed_trend_eq, neg_config_Fails by done. unfold Go.sub.
      rewrite wrap_id by (unfold Go.is_int, Go.intMin, Go.intMax in *; lia).
      zcases. }
    destruct (IH (failed s a)) as [IHt IHh];
      rewrite ?failed_config; [done|lia|].
    rewrite failed_config in *. rewrite IHt, IHh, Ht1. split; [lia|].
    rewrite failed_healthy, Ht1, neg_config_Fails by done.
    destruct (Z.eqb_spec (Z.max (trend_at s a - 1) (- Fails (config s)))
                         (- Fails (config s))); set_solver by lia.
Qed.

(** C5. In the scenario [Fails=2], [Passes=2] the host ["h1"] turns healthy,
    unhealthy and healthy again as two passes, two fails and two passes are
    recorded; the following [sync {"h2"}] removes it from [healthy] and
    [trend] but leaves it in [all], so that a later [sync] that brings
    ["h1"] back does not take it for a new entry and leaves it unhealthy. *)
Theorem state_scenario_sync_keeps_all :
  "h1" ∈ healthy sc1 ∧ ("h1" ∉ healthy sc2) ∧ "h1" ∈ healthy sc3 ∧
  ("h1" ∉ healthy sc4) ∧ trend sc4 !! "h1" = None ∧
  "h1" ∈ all sc4 ∧ all sc4 = {["h1"; "h2"]} ∧
  ("h1" ∉ healthy (sync sc4 {["h1"; "h2"]})).
Proof. repeat split; compute_done. Qed.

(** C6, as stated, fails: right after [sync {"h1"}] the host is healthy
    although its trend counter is 0, not [Passes]. *)
Lemma state_healthy_iff_passes_counterexample :
  ¬ ("h1" ∈ healthy sc0 ↔ trend_at sc0 "h1" = Passes (config sc0)).
Proof.
  assert ("h1" ∈ healthy sc0) as Hin by compute_done.
  intros [Hf _]. specialize (Hf Hin). vm_compute in Hf. discriminate.
Qed.

(** C6, amended. With [1 <= Fails] and [1 <= Passes], after any sequence of
    sync/passed/failed calls on a new state the trend counter of every
    address lies in [[-Fails, +Passes]] and an address whose counter equals
    [+Passes] is healthy; [passed a] adds [a] to the healthy set exactly
    when it brings the counter to [+Passes], [failed a] removes it exactly
    when it brings the counter to [-Fails], and neither touches the health
    of another address. *)
Theorem state_trend_bounds_and_thresholds (c : FilterConfig)
    (ops : list op) (a : string) :
  1 <= Fails c <= Go.intMax → 1 <= Passes c →
  let s := run (newState c) ops in
  (- Fails c <= trend_at s a <= Passes c) ∧
  (trend_at s a = Passes c → a ∈ healthy s) ∧
  (a ∈ healthy (passed s a) ↔
     a ∈ healthy s ∨ trend_at (passed s a) a = Passes c) ∧
  (a ∈ healthy (failed s a) ↔
     a ∈ healthy s ∧ trend_at (failed s a) a ≠ - Fails c) ∧
  (∀ b, b ≠ a → (b ∈ healthy (passed s a) ↔ b ∈ healthy s) ∧
                (b ∈ healthy (failed s a) ↔ b ∈ healthy s)).
Proof.
  intros HF HP s.
  assert (config s = c) as Hc by apply run_config.
  assert (trend_inv s) as Hinv.
  { apply trend_inv_run; simpl; [done|done|apply trend_inv_new; lia]. }
  destruct (Hinv a) as [Hb Hh]. rewrite Hc in *.
  split; [done|]. split; [done|].
  rewrite passed_healthy, failed_healthy, Hc, neg_config_Fails by done.
  split; [|split].
  - destruct (Z.eqb_spec (trend_at (passed s a) a) (Passes c)); set_solver.
  - destruct (Z.eqb_spec (trend_at (failed s a) a) (- Fails c)); set_solver.
  - intros b Hne. split; case_match; set_solver.
Qed.

Lemma state_trend_bounds_and_thresholds_witness :
  let s := run (newState cfg22) [Sync {["h1"]}; Failed "h1"; Passed "h1"] in
  (- 2 <= trend_at s "h1" <= 2) ∧
  (trend_at s "h1" = 2 → "h1" ∈ healthy s) ∧
  ("h1" ∈ healthy (passed s "h1") ↔
     "h1" ∈ healthy s ∨ trend_at (passed s "h1") "h1" = 2) ∧
  ("h1" ∈ healthy (failed s "h1") ↔
     "h1" ∈ healthy s ∧ trend_at (failed s "h1") "h1" ≠ - 2) ∧
  (∀ b, b ≠ "h1" → (b ∈ healthy (passed s "h1") ↔ b ∈ healthy s) ∧
                   (b ∈ healthy (failed s "h1") ↔ b ∈ healthy s)).
Proof.
  apply (state_trend_bounds_and_thresholds cfg22
           [Sync {["h1"]}; Failed "h1"; Passed "h1"] "h1");
    simpl; unfold Go.intMax; lia.
Defined.

(** C9. With [1 <= Fails] and [1 <= Passes], whatever the trend of [a] was,
    one [failed a] leaves it in [[-Fails, -1]] and one [passed a] leaves it
    in [[1, +Passes]]: a trend of the other sign is dropped, not counted
    down. Hence, from a non-positive trend, [k] passes in a row give the
    trend [min k Passes] and make an unhealthy [a] healthy exactly when
    [Passes <= k]; from a non-negative trend, [k] fails in a row give
    [- min k Fails] and make a healthy [a] unhealthy exactly when
    [Fails <= k]. *)
Theorem state_single_call_resets_trend (s : state) (a : string) :
  1 <= Fails (config s) <= Go.intMax →
  1 <= Passes (config s) < Go.intMax →
  Go.is_int (trend_at s a) →
  (- Fails (config s) <= trend_at (failed s a) a <= -1) ∧
  (1 <= trend_at (passed s a) a <= Passes (config s)) ∧
  (0 <= trend_at s a → trend_at (failed s a) a = -1) ∧
  (trend_at s a <= 0 → trend_at (passed s a) a = 1) ∧
  (∀ k : nat, (0 < k)%nat → trend_at s a <= 0 →
     let s' := run s (replicate k (Passed a)) in
     trend_at s' a = Z.min (Z.of_nat k) (Passes (config s)) ∧
     (a ∉ healthy s → (a ∈ healthy s' ↔ Passes (config s) <= Z.of_nat k))) ∧
  (∀ k : nat, (0 < k)%nat → 0 <= trend_at s a →
     let s' := run s (replicate k (Failed a)) in
     trend_at s' a = - Z.min (Z.of_nat k) (Fails (config s)) ∧
     (a ∈ healthy s → (a ∉ healthy s' ↔ Fails (config s) <= Z.of_nat k))).
Proof.
  intros HF HP Hint.
  assert (0 <= trend_at s a → trend_at (failed s a) a = -1) as Hf1.
  { intros H0. rewrite failed_trend_eq, neg_config_Fails by done.
    unfold Go.sub.
    rewrite wrap_id by (unfold Go.is_int, Go.intMin, Go.intMax in *; lia).
    zcases. }
  assert (trend_at s a <= 0 → trend_at (passed s a) a = 1) as Hp1.
  { intros H0. rewrite passed_trend_eq. unfold Go.add.
    rewrite wrap_id by (unfold Go.is_int, Go.intMin, Go.intMax in *; lia).
    zcases. }
  split; [by apply failed_range|]. split; [apply passed_range; lia|].
  split; [done|]. split; [done|]. split.
  - intros [|k] Hk H0; [lia|]. cbn [replicate].
    rewrite run_cons. cbn [step].
    destruct (passes_from_pos a k (passed s a)) as [Ht Hh];
      rewrite ?passed_config, ?Hp1 by done; [done|lia|].
    rewrite passed_config, Hp1 in * by done. rewrite Ht. split; [lia|].
    intros Hnh. rewrite Hh, passed_healthy, Hp1 by done.
    destruct (Z.eqb_spec 1 (Passes (config s))); set_solver by lia.
  - intros [|k] Hk H0; [lia|]. cbn [replicate].
    rewrite run_cons. cbn [step].
    destruct (fails_from_neg a k (failed s a)) as [Ht Hh];
      rewrite ?failed_config, ?Hf1 by done; [done|lia|].
    rewrite failed_config, Hf1 in * by done. rewrite Ht. split; [lia|].
    intros Hnh. rewrite Hh, failed_healthy, Hf1, neg_config_Fails by done.
    destruct (Z.eqb_spec (-1) (- Fails (config s)));
      (split; [intros Hn|intros Hle; intros [Hin Hn']]);
      try (apply dec_stable; intros Hlt); set_solver by lia.
Qed.

Lemma state_single_call_resets_trend_witness :
  let s := run (newState cfg22) [Sync {["h1"]}; Passed "h1"] in
  (- 2 <= trend_at (failed s "h1") "h1" <= -1) ∧
  (1 <= trend_at (passed s "h1") "h1" <= 2) ∧
  trend_at (failed s "h1") "h1" = -1 ∧
  (trend_at (run s [Failed "h1"; Failed "h1"; Failed "h1"]) "h1" = - 2 ∧
   ("h1" ∉ healthy (run s [Failed "h1"; Failed "h1"; Failed "h1"])
    ↔ 2 <= 3)).
Proof.
  intros s.
  assert (trend_at s "h1" = 1) as Ht by (vm_compute; reflexivity).
  assert ("h1" ∈ healthy s) as Hh by compute_done.
  assert (config s = cfg22) as Hc by reflexivity.
  destruct (state_single_call_resets_trend s "h1")
    as (H1 & H2 & H3 & _ & _ & H6).
  - rewrite Hc; simpl; unfold Go.intMax; lia.
  - rewrite Hc; simpl; unfold Go.intMax; lia.
  - rewrite Ht; unfold Go.is_int, Go.intMin, Go.intMax; lia.
  - split; [exact H1|]. split; [exact H2|].
    split; [apply H3; rewrite Ht; lia|].
    destruct (H6 3%nat) as [H7 H8]; [lia|rewrite Ht; lia|].
    split; [exact H7|exact (H8 Hh)].
Defined.

Lemma state_eq (s1 s2 : state) :
  config s1 = config s2 → all s1 = all s2 → healthy s1 = healthy s2 →
  trend s1 = trend s2 → s1 = s2.
Proof. destruct s1, s2; simpl; intros; by subst. Qed.

(** X1. [sync] is idempotent: a second [sync] with the same addresses
    changes nothing. *)
Theorem sync_idempotent (s : state) (addrs : gset string) :
  sync (sync s addrs) addrs = sync s addrs.
Proof.
  apply state_eq.
  - done.
  - rewrite !sync_all. set_solver.
  - rewrite !sync_healthy, sync_all. set_solver.
  - apply map_eq; intros a. rewrite !sync_trend, sync_healthy.
    repeat case_bool_decide; set_solver.
Qed.

(** X2. After [sync addrs] the healthy set lies within [addrs], holds every
    address of [addrs] that the state had not seen before and every
    address of [addrs] that was healthy, and the trend of an address of
    [addrs] is as before; on a new state it is [addrs] itself. *)
Theorem sync_healthy_members (s : state) (addrs : gset string) :
  healthy (sync s addrs) ⊆ addrs ∧
  addrs ∖ all s ⊆ healthy (sync s addrs) ∧
  healthy s ∩ addrs ⊆ healthy (sync s addrs) ∧
  (∀ a, a ∈ addrs → trend (sync s addrs) !! a = trend s !! a) ∧
  healthy (sync (newState (config s)) addrs) = addrs.
Proof.
  rewrite !sync_healthy. repeat split; try set_solver.
  intros a Ha. rewrite sync_trend. case_bool_decide; set_solver.
Qed.

Lemma steady_inv (a : string) (ops : list op) : ∀ s cur,
  1 <= Fails (config s) <= Go.intMax →
  1 <= Passes (config s) <= Go.intMax →
  a ∈ healthy s →
  0 <= cur < Fails (config s) →
  (cur = 0 → 0 <= trend_at s a <= Go.intMax) →
  (cur ≠ 0 → trend_at s a = - cur) →
  steady a (Fails (config s)) cur ops = true →
  a ∈ healthy (run s ops).
Proof.
  induction ops as [|o ops IH]; intros s cur HF HP Hh Hcur H0 Hn Hst; [done|].
  rewrite run_cons. destruct o as [addrs|b|b]; cbn [step steady] in *.
  - apply andb_prop in Hst as [Hin Hst]. apply bool_decide_eq_true in Hin.
    apply (IH _ cur); rewrite ?sync_config; try done.
    + rewrite sync_healthy. set_solver.
    + intros Hc. unfold trend_at. rewrite sync_trend.
      rewrite bool_decide_eq_false_2 by tauto. by apply H0.
    + intros Hc. unfold trend_at. rewrite sync_trend.
      rewrite bool_decide_eq_false_2 by tauto. by apply Hn.
  - case_bool_decide as Hb.
    + subst b. pose proof (passed_range s a ltac:(lia)) as Hr.
      apply (IH _ 0); rewrite ?passed_config; try done; try lia.
      rewrite passed_healthy. case_match; set_solver.
    + apply (IH _ cur); rewrite ?passed_config; try done.
      * rewrite passed_healthy. case_match; set_solver.
      * rewrite passed_trend_ne by done. done.
      * rewrite passed_trend_ne by done. done.
  - case_bool_decide as Hb.
    + subst b. apply andb_prop in Hst as [Hlt Hst]. apply Z.ltb_lt in Hlt.
      assert (trend_at (failed s a) a = - (cur + 1)) as Ht.
      { rewrite failed_trend_eq, neg_config_Fails by done. unfold Go.sub.
        destruct (decide (cur = 0)) as [Hc|Hc].
        - specialize (H0 Hc).
          rewrite wrap_id
            by (unfold Go.is_int, Go.intMin, Go.intMax in *; lia).
          zcases.
        - rewrite (Hn Hc).
          rewrite wrap_id
            by (unfold Go.is_int, Go.intMin, Go.intMax in *; lia).
          zcases. }
      apply (IH _ (cur + 1)); rewrite ?failed_config; try done; try lia.
      rewrite failed_healthy, Ht, neg_config_Fails by done.
      destruct (Z.eqb_spec (- (cur + 1)) (- Fails (config s))); [lia|done].
    + apply (IH _ cur); rewrite ?failed_config; try done.
      * rewrite failed_healthy. case_match; set_solver.
      * rewrite failed_trend_ne by done. done.
      * rewrite failed_trend_ne by done. done.
Qed.

(** X3. A healthy address whose trend is not negative stays healthy through
    any sequence of calls, on whatever addresses, in which every [sync]
    keeps it and it never fails [Fails] times in a row. *)
Theorem healthy_while_steady (s : state) (a : string) (ops : list op) :
  1 <= Fails (config s) <= Go.intMax →
  1 <= Passes (config s) <= Go.intMax →
  a ∈ healthy s →
  0 <= trend_at s a <= Go.intMax →
  steady a (Fails (config s)) 0 ops = true →
  a ∈ healthy (run s ops).
Proof.
  intros HF HP Hh Ht Hst. apply (steady_inv a ops s 0); try done; lia.
Qed.

Lemma healthy_while_steady_witness :
  "h1" ∈ healthy (run sc1 [Failed "h1"; Failed "h2"; Sync {["h1"; "h3"]};
                         Passed "h1"; Failed "h1"]).
Proof.
  assert (config sc1 = cfg22) as Hc by reflexivity.
  apply healthy_while_steady; rewrite ?Hc.
  - simpl; unfold Go.intMax; lia.
  - simpl; unfold Go.intMax; lia.
  - compute_done.
  - assert (trend_at sc1 "h1" = 2) as -> by (vm_compute; reflexivity).
    unfold Go.intMax; lia.
  - vm_compute; reflexivity.
Defined.

(** X16. As long as passes are reported only for addresses of the latest
    [sync], the healthy set stays within the addresses of the latest
    [sync]. *)
Theorem healthy_within_members (ops : list op) :
  ∀ (s : state) (cur : gset string),
  healthy s ⊆ cur →
  members_only cur ops = true →
  healthy (run s ops) ⊆ last_sync cur ops.
Proof.
  induction ops as [|o ops IH]; intros s cur Hsub Hm; [done|].
  rewrite run_cons. destruct o as [addrs|a|a]; cbn [step] in *; simpl in Hm.
  - apply IH; [|done]. rewrite sync_healthy. set_solver.
  - apply andb_prop in Hm as [Ha Hm]. apply bool_decide_eq_true in Ha.
    apply IH; [|done]. rewrite passed_healthy. case_match; set_solver.
  - apply IH; [|done]. rewrite failed_healthy. case_match; set_solver.
Qed.

Lemma healthy_within_members_witness :
  healthy (run (newState cfg22)
             [Sync {["h1"; "h2"]}; Passed "h1"; Failed "h2"; Sync {["h2"]};
              Passed "h2"; Passed "h2"])
  ⊆ {["h2"]}.
Proof.
  assert (healthy (newState cfg22) ⊆ ∅) as Hsub by (simpl; set_solver).
  exact (healthy_within_members
           [Sync {["h1"; "h2"]}; Passed "h1"; Failed "h2"; Sync {["h2"]};
            Passed "h2"; Passed "h2"] (newState cfg22) ∅ Hsub eq_refl).
Defined.

End state_props.

(** ** The passive filter *)

Section passive_props.
Import PassiveFilter.

Lemma NewPassiveFilter_configured `{Defaults} (c : PassiveFilterConfig) :
  NewPassiveFilter c = configured (applyDefaults c).
Proof. reflexivity. Qed.

Lemma gtb_true a b : (a >? b) = true ↔ b < a.
Proof. rewrite Z.gtb_ltb. apply Z.ltb_lt. Qed.

Lemma gtb_false a b : (a >? b) = false ↔ a <= b.
Proof. rewrite Z.gtb_ltb. apply Z.ltb_ge. Qed.

(** What the loop of [Run] computes, for a walk over any map [m]. *)
Lemma Run_fold c now (U : gmap string Z) (H : gset string) (m : gmap string Z) :
  (∀ a, (map_fold (Run_entry c now) (U, H) m).1 !! a =
        match m !! a with
        | Some t => if Go.Time_Sub now t >? FailTimeout c then None else U !! a
        | None => U !! a
        end) ∧
  (∀ a, a ∈ (map_fold (Run_entry c now) (U, H) m).2 ↔
        a ∈ H ∧ ∀ t, m !! a = Some t → FailTimeout c < Go.Time_Sub now t).
Proof.
  refine (map_fold_weak_ind (λ r (m : gmap string Z),
    (∀ a, r.1 !! a =
          match m !! a with
          | Some t => if Go.Time_Sub now t >? FailTimeout c then None else U !! a
          | None => U !! a
          end) ∧
    (∀ a, a ∈ r.2 ↔
          a ∈ H ∧ ∀ t, m !! a = Some t → FailTimeout c < Go.Time_Sub now t))
    (Run_entry c now) (U, H) _ _ m).
  - simpl. split; intros a; rewrite ?lookup_empty; [done|].
    split; [intros ?; split; [done|]; by intros t|tauto].
  - intros i x m' [u h] Hi [Hu Hh]; simpl in *. unfold Run_entry; simpl.
    destruct (Go.Time_Sub now x >? FailTimeout c) eqn:Hx; simpl.
    + apply gtb_true in Hx. split; intros a.
      * destruct (decide (a = i)) as [->|Hne].
        -- rewrite lookup_delete_eq, lookup_insert_eq.
           by apply gtb_true in Hx as ->.
        -- by rewrite lookup_delete_ne, lookup_insert_ne, Hu.
      * rewrite Hh. destruct (decide (a = i)) as [->|Hne].
        -- rewrite lookup_insert_eq, Hi. naive_solver.
        -- by rewrite lookup_insert_ne.
    + apply gtb_false in Hx. split; intros a.
      * destruct (decide (a = i)) as [->|Hne].
        -- rewrite lookup_insert_eq, Hu, Hi.
           by apply gtb_false in Hx as ->.
        -- by rewrite lookup_insert_ne, Hu.
      * rewrite elem_of_difference, Hh, not_elem_of_singleton.
        destruct (decide (a = i)) as [->|Hne].
        -- rewrite lookup_insert_eq. split; [tauto|].
           intros [_ Hall]. specialize (Hall x eq_refl). lia.
        -- rewrite lookup_insert_ne by done. tauto.
Qed.

Lemma Run_healthy f now addrs a :
  a ∈ (Run f now addrs).2 ↔
  a ∈ addrs ∧
  ∀ t, unhealthy f !! a = Some t → FailTimeout (config f) < Go.Time_Sub now t.
Proof. unfold Run; simpl. apply Run_fold. Qed.

Lemma Run_unhealthy f now addrs a :
  unhealthy (Run f now addrs).1 !! a =
  match unhealthy f !! a with
  | Some t =>
      if Go.Time_Sub now t >? FailTimeout (config f) then None else Some t
  | None => None
  end.
Proof.
  unfold Run; simpl.
  destruct (Run_fold (config f) now (unhealthy f) addrs (unhealthy f))
    as [Hu _].
  rewrite Hu. destruct (unhealthy f !! a) eqn:E; [|done]. by case_match.
Qed.

Lemma Run_config f now addrs : config (Run f now addrs).1 = config f.
Proof. done. Qed.

Lemma Run_failures f now addrs : failures (Run f now addrs).1 = failures f.
Proof. done. Qed.

Lemma Failed_config f now a : config (Failed f now a) = config f.
Proof. done. Qed.

Lemma exec_cons f c cs : exec f (c :: cs) = exec (exec1 f c) cs.
Proof. done. Qed.

Lemma exec1_config f c : config (exec1 f c) = config f.
Proof. by destruct c. Qed.

Lemma exec_config f cs : config (exec f cs) = config f.
Proof.
  revert f; induction cs as [|c cs IH]; intros f; [done|].
  by rewrite exec_cons, IH, exec1_config.
Qed.

(** Every mark has been set by a [Failed] call, at that call's time. *)
Lemma exec_marks cs : ∀ f a t,
  unhealthy (exec f cs) !! a = Some t →
  unhealthy f !! a = Some t ∨ CallFailed t a ∈ cs.
Proof.
  induction cs as [|c cs IH]; intros f a t Ht; [by left|].
  rewrite exec_cons in Ht. apply IH in Ht as [Ht|Ht].
  - destruct c as [now b|now addrs]; cbn [exec1] in Ht.
    + unfold Failed in Ht; simpl in Ht. case_match; [|by left].
      destruct (decide (b = a)) as [->|Hne].
      * rewrite lookup_insert_eq in Ht. injection Ht as ->.
        right. apply list_elem_of_here.
      * rewrite lookup_insert_ne in Ht by done. by left.
    + rewrite Run_unhealthy in Ht. left.
      destruct (unhealthy f !! a); [|done]. by case_match.
  - right. by apply list_elem_of_further.
Qed.

Lemma filter_all_id (P : Z → Prop) `{∀ x, Decision (P x)} (l : list Z) :
  Forall P l → filter P l = l.
Proof.
  induction 1 as [|x l Hx _ IH]; [done|].
  by rewrite filter_cons_True, IH.
Qed.

(** On a non-decreasing list of timestamps, popping the expired ones off
    the front leaves exactly those not older than [FailTimeout]. *)
Lemma pop_expired_sorted c now (fs : list Z) :
  Sorted Z.le fs →
  pop_expired c now fs
  = filter (λ t, Go.Time_Sub now t <= FailTimeout c) fs.
Proof.
  intros Hs. apply Sorted_StronglySorted in Hs; [|intros ???; lia].
  induction Hs as [|t fs Hs IH Hall]; [done|].
  simpl. destruct (Go.Time_Sub now t >? FailTimeout c) eqn:Hx.
  - apply gtb_true in Hx. rewrite filter_cons_False by lia. done.
  - apply gtb_false in Hx. rewrite filter_cons_True by done. f_equal.
    symmetry. apply filter_all_id. eapply Forall_impl; [exact Hall|].
    intros t' Hle; simpl. unfold Go.Time_Sub in *. lia.
Qed.

(** C3, as stated, fails: 31s after the start the mark of ["h1"], set at
    the third failure (2s), is 29s old and still hides the host. *)
Lemma passive_scenario_31s_counterexample :
  ¬ ((Run marked (3 * Go.Second) {["h1"; "h2"]}).2 = {["h2"]} ∧
     (Run marked (31 * Go.Second) {["h1"; "h2"]}).2 = {["h1"; "h2"]}).
Proof.
  intros [_ H31].
  assert ("h1" ∈ (Run marked (31 * Go.Second) {["h1"; "h2"]}).2) as Hin
    by (rewrite H31; set_solver).
  revert Hin. compute_done.
Qed.

(** C3, amended. With [Fails=3], [FailTimeout=30s] and ["h1"] reported
    failed at 0s, 1s and 2s, the host is marked unhealthy since 2s;
    [Run {"h1","h2"}] returns [{"h2"}] at 3s (leaving the mark in place), at
    31s and at 32s, and [{"h1","h2"}] at 33s: at any time [t] it returns
    [{"h1","h2"}] when [t - 2s > 30s] and [{"h2"}] otherwise. *)
Theorem passive_scenario :
  unhealthy marked = {["h1" := 2 * Go.Second]} ∧
  (Run marked (3 * Go.Second) {["h1"; "h2"]}).2 = {["h2"]} ∧
  unhealthy (Run marked (3 * Go.Second) {["h1"; "h2"]}).1 = unhealthy marked ∧
  (Run marked (31 * Go.Second) {["h1"; "h2"]}).2 = {["h2"]} ∧
  (Run marked (32 * Go.Second) {["h1"; "h2"]}).2 = {["h2"]} ∧
  (Run marked (33 * Go.Second) {["h1"; "h2"]}).2 = {["h1"; "h2"]} ∧
  (∀ t, (Run marked t {["h1"; "h2"]}).2 =
        if Go.Time_Sub t (2 * Go.Second) >? 30 * Go.Second
        then {["h1"; "h2"]} else {["h2"]}).
Proof.
  assert (unhealthy marked = {["h1" := 2 * Go.Second]}) as Hm by compute_done.
  split; [done|]. do 5 (split; [compute_done|]).
  intros t. apply set_eq; intros a. rewrite Run_healthy, Hm.
  change (FailTimeout (config marked)) with (30 * Go.Second).
  destruct (Go.Time_Sub t (2 * Go.Second) >? 30 * Go.Second) eqn:Hx.
  - apply gtb_true in Hx. split; [tauto|]. intros Ha; split; [done|].
    intros u Hu. apply lookup_singleton_Some in Hu as [_ <-]. done.
  - apply gtb_false in Hx. rewrite elem_of_singleton. split.
    + intros [Ha Hall]. apply elem_of_union in Ha as [Ha|Ha];
        apply elem_of_singleton in Ha as ->; [|done].
      specialize (Hall _ (lookup_singleton_eq _ _)). lia.
    + intros ->. split; [set_solver|]. intros u Hu.
      by apply lookup_singleton_Some in Hu as [? _].
Qed.

(** C4, as stated, fails at the boundary: a mark exactly [FailTimeout] old
    is not younger than [FailTimeout], and no failure has been reported for
    [FailTimeout], yet [Run] still leaves the host out. *)
Lemma passive_boundary_counterexample :
  ¬ (("h1" ∉ (Run marked_once (30 * Go.Second) {["h1"]}).2) ↔
     ∃ t, unhealthy marked_once !! "h1" = Some t ∧
          Go.Time_Sub (30 * Go.Second) t < FailTimeout (config marked_once)).
Proof.
  intros [Hex _].
  destruct Hex as (t & Ht & Hlt); [compute_done|].
  assert (unhealthy marked_once !! "h1" = Some 0) as H0 by compute_done.
  rewrite H0 in Ht. injection Ht as <-. revert Hlt. compute_done.
Qed.

(** C4, amended. [Failed a] at time [now] keeps, of the failures recorded
    for [a], those left after popping the expired ones off the front (on
    non-decreasing timestamps: those at most [FailTimeout] old), appends
    [now], and marks [a] unhealthy since [now] exactly when that window has
    at least [Fails] entries; other addresses are untouched. [Run addrs]
    leaves [a] out exactly while its mark is at most [FailTimeout] old, and
    drops the marks older than that. So [a], when in [addrs], is back in
    [Run addrs] once every failure reported for it is strictly more than
    [FailTimeout] old. [Fails] and [FailTimeout] are those of the filter's
    config, which for a filter made by [NewPassiveFilter c] is [c] with the
    defaults applied. *)
Theorem passive_marks_and_recovery `{Defaults} (c : PassiveFilterConfig) :
  (∀ f now a,
     let w := pop_expired (config f) now (default [] (failures f !! a))
              ++ [now] in
     failures (Failed f now a) !! a = Some w ∧
     unhealthy (Failed f now a) !! a =
       (if Z.of_nat (length w) >=? Fails (config f)
        then Some now else unhealthy f !! a) ∧
     (Sorted Z.le (default [] (failures f !! a)) →
      w = filter (λ t, Go.Time_Sub now t <= FailTimeout (config f))
                 (default [] (failures f !! a)) ++ [now]) ∧
     (∀ b, b ≠ a → unhealthy (Failed f now a) !! b = unhealthy f !! b ∧
                   failures (Failed f now a) !! b = failures f !! b)) ∧
  (∀ f now addrs a,
     (a ∈ (Run f now addrs).2 ↔
      a ∈ addrs ∧
      ¬ ∃ t, unhealthy f !! a = Some t ∧
             Go.Time_Sub now t <= FailTimeout (config f)) ∧
     unhealthy (Run f now addrs).1 !! a =
       match unhealthy f !! a with
       | Some t => if Go.Time_Sub now t >? FailTimeout (config f)
                   then None else Some t
       | None => None
       end) ∧
  (∀ cs now addrs a,
     (∀ t, CallFailed t a ∈ cs →
           FailTimeout (applyDefaults c) < Go.Time_Sub now t) →
     a ∈ addrs →
     a ∈ (Run (exec (NewPassiveFilter c) cs) now addrs).2).
Proof.
  split; [|split].
  - intros f now a w. unfold Failed; simpl. fold w.
    rewrite lookup_insert_eq. split; [done|]. split; [|split].
    + case_match; [by rewrite lookup_insert_eq|done].
    + intros Hs. unfold w. by rewrite pop_expired_sorted.
    + intros b Hne. rewrite lookup_insert_ne by done.
      split; [|done]. case_match; [by rewrite lookup_insert_ne|done].
  - intros f now addrs a. split; [|apply Run_unhealthy].
    rewrite Run_healthy. split; intros [Ha Hall]; (split; [done|]).
    + intros (t & Ht & Hle). specialize (Hall t Ht). lia.
    + intros t Ht.
      destruct (Z.lt_ge_cases (FailTimeout (config f)) (Go.Time_Sub now t));
        [done|].
      exfalso. apply Hall. exists t. split; [done|lia].
  - intros cs now addrs a Hold Ha. apply Run_healthy. split; [done|].
    intros t Ht. rewrite exec_config; simpl.
    apply exec_marks in Ht as [Ht|Ht];
      [simpl in Ht; by rewrite lookup_empty in Ht|].
    by apply Hold.
Qed.

(** X4. [Run] only removes: its result lies within [addrs], it is [addrs]
    itself when no address is marked, it keeps no mark that was not there
    and leaves the failure windows alone. *)
Theorem Run_only_removes (f : passiveFilter) (now : Z) (addrs : gset string) :
  (Run f now addrs).2 ⊆ addrs ∧
  (unhealthy f = ∅ → (Run f now addrs).2 = addrs) ∧
  unhealthy (Run f now addrs).1 ⊆ unhealthy f ∧
  failures (Run f now addrs).1 = failures f.
Proof.
  split; [|split; [|split; [|done]]].
  - intros a Ha. by apply Run_healthy in Ha as [? _].
  - intros He. apply set_eq; intros a. rewrite Run_healthy, He.
    split; [tauto|]. intros Ha; split; [done|]. intros t.
    by rewrite lookup_empty.
  - apply map_subseteq_spec. intros a t. rewrite Run_unhealthy.
    destruct (unhealthy f !! a); [|done]. by case_match.
Qed.

Lemma Time_Sub_mono t1 t2 u : t1 <= t2 → Go.Time_Sub t1 u <= Go.Time_Sub t2 u.
Proof. unfold Go.Time_Sub. lia. Qed.

(** X5. The marks [Run] drops are not missed later: when the clock has not
    gone back, a [Run] gives the same result and leaves the same marks
    whether or not an earlier [Run] came before it. *)
Theorem Run_after_Run (f : passiveFilter) (t1 t2 : Z)
    (addrs1 addrs2 : gset string) :
  t1 <= t2 →
  (Run (Run f t1 addrs1).1 t2 addrs2).2 = (Run f t2 addrs2).2 ∧
  unhealthy (Run (Run f t1 addrs1).1 t2 addrs2).1
  = unhealthy (Run f t2 addrs2).1.
Proof.
  intros Hle. split.
  - apply set_eq; intros a. rewrite !Run_healthy, Run_config.
    split; intros [Ha Hall]; (split; [done|]); intros t Ht.
    + destruct (Go.Time_Sub t1 t >? FailTimeout (config f)) eqn:Hx.
      * apply gtb_true in Hx. pose proof (Time_Sub_mono t1 t2 t Hle). lia.
      * apply Hall. by rewrite Run_unhealthy, Ht, Hx.
    + apply Hall. rewrite Run_unhealthy in Ht.
      destruct (unhealthy f !! a); [|done]. by case_match.
  - apply map_eq; intros a. rewrite !Run_unhealthy, Run_config.
    destruct (unhealthy f !! a) as [t|]; [|done].
    destruct (Go.Time_Sub t1 t >? FailTimeout (config f)) eqn:Hx; [|done].
    apply gtb_true in Hx. pose proof (Time_Sub_mono t1 t2 t Hle).
    symmetry. case_match eqn:Hy; [done|]. apply gtb_false in Hy. lia.
Qed.

Lemma Run_after_Run_witness :
  (Run (Run marked (3 * Go.Second) {["h1"]}).1 (40 * Go.Second)
       {["h1"; "h2"]}).2
  = (Run marked (40 * Go.Second) {["h1"; "h2"]}).2.
Proof.
  apply (Run_after_Run marked (3 * Go.Second) (40 * Go.Second)).
  unfold Go.Second; lia.
Defined.

Lemma pop_expired_length c now (fs : list Z) :
  (length (pop_expired c now fs) <= length fs)%nat.
Proof.
  induction fs as [|t fs IH]; simpl; [lia|]. case_match; simpl; lia.
Qed.

Lemma reports_cons a c cs :
  reports a (c :: cs)
  = (match c with
     | CallFailed _ b => if decide (b = a) then 1 else 0
     | CallRun _ _ => 0
     end + reports a cs)%nat.
Proof.
  destruct c as [now b|now addrs]; simpl; [|done].
  by destruct (decide (b = a));
    [rewrite bool_decide_eq_true_2|rewrite bool_decide_eq_false_2].
Qed.

(** A mark on [a] takes [Fails] reports: the window of [a] is no longer
    than the number of reports so far, on top of [n] for the state the
    calls start from. *)
Lemma exec_reports a cs : ∀ f (n : nat),
  (length (default [] (failures f !! a)) <= n)%nat →
  (is_Some (unhealthy f !! a) → Fails (config f) <= Z.of_nat n) →
  is_Some (unhealthy (exec f cs) !! a) →
  Fails (config f) <= Z.of_nat (n + reports a cs).
Proof.
  induction cs as [|c cs IH]; intros f n Hlen Hm Hs.
  { simpl. rewrite Nat.add_0_r. by apply Hm. }
  rewrite exec_cons in Hs. rewrite reports_cons.
  destruct c as [now b|now addrs]; cbn [exec1] in Hs.
  - destruct (decide (b = a)) as [->|Hne].
    + rewrite Nat.add_assoc. rewrite <- (Failed_config f now a).
      apply IH; [| |done].
      * unfold Failed; simpl. rewrite lookup_insert_eq; simpl.
        rewrite length_app; simpl.
        pose proof (pop_expired_length (config f) now
                      (default [] (failures f !! a))). lia.
      * unfold Failed; simpl.
        destruct (Z.of_nat _ >=? Fails (config f)) eqn:Hge.
        -- intros _. apply Z.geb_le in Hge.
           rewrite length_app in Hge; simpl in Hge.
           pose proof (pop_expired_length (config f) now
                         (default [] (failures f !! a))). lia.
        -- intros Hs'. specialize (Hm Hs'). lia.
    + rewrite <- (Failed_config f now b). apply IH; [| |done].
      * unfold Failed; simpl. rewrite lookup_insert_ne by done. lia.
      * unfold Failed; simpl. case_match.
        -- rewrite lookup_insert_ne by done. intros Hs'.
           specialize (Hm Hs'). lia.
        -- intros Hs'. specialize (Hm Hs'). lia.
  - rewrite <- (Run_config f now addrs). apply IH; [| |done].
    + simpl. lia.
    + rewrite Run_unhealthy, Run_config. intros Hs'.
      destruct (unhealthy f !! a) eqn:E; [|by destruct Hs'].
      specialize (Hm ltac:(eauto)). lia.
Qed.

(** X6. On a filter just made by [NewPassiveFilter], an address reported
    failed fewer times than the [Fails] of its config (the given config
    with the defaults applied), whenever and among whatever other calls, is
    not marked and is not filtered out. *)
Theorem few_reports_never_mark `{Defaults} (c : PassiveFilterConfig)
    (cs : list call) (a : string) (now : Z) (addrs : gset string) :
  Z.of_nat (reports a cs) < Fails (applyDefaults c) →
  unhealthy (exec (NewPassiveFilter c) cs) !! a = None ∧
  (a ∈ addrs → a ∈ (Run (exec (NewPassiveFilter c) cs) now addrs).2).
Proof.
  intros Hlt.
  assert (unhealthy (exec (NewPassiveFilter c) cs) !! a = None) as Hn.
  { destruct (unhealthy (exec (NewPassiveFilter c) cs) !! a) eqn:E; [|done].
    exfalso.
    pose proof (exec_reports a cs (NewPassiveFilter c) 0) as Hr.
    simpl in Hr. rewrite !lookup_empty in Hr. simpl in Hr.
    specialize (Hr ltac:(lia)). rewrite E in Hr.
    specialize (Hr ltac:(by intros [? ?]) ltac:(eauto)). lia. }
  split; [done|]. intros Ha. apply Run_healthy. split; [done|].
  intros t Ht. by rewrite Hn in Ht.
Qed.

Lemma few_reports_never_mark_witness :
  unhealthy (exec (@NewPassiveFilter zero_defaults cfg3_0)
               [CallFailed 0 "h1"; CallFailed 1 "h2"; CallFailed 2 "h1"])
    !! "h1" = None.
Proof.
  apply (@few_reports_never_mark zero_defaults cfg3_0
           [CallFailed 0 "h1"; CallFailed 1 "h2"; CallFailed 2 "h1"]
           "h1" 3 ∅).
  vm_compute. reflexivity.
Defined.

Lemma pop_keeps_suffix c now (l1 : list Z) t (l2 : list Z) :
  Go.Time_Sub now t <= FailTimeout c →
  ∃ l1', pop_expired c now (l1 ++ t :: l2) = l1' ++ t :: l2.
Proof.
  intros Ht. induction l1 as [|x l1 IH]; simpl.
  - exists []. apply gtb_false in Ht. by rewrite Ht.
  - case_match; [done|]. by exists (x :: l1).
Qed.

Lemma Failed_at_snoc f a ts t :
  Failed_at f a (ts ++ [t]) = Failed (Failed_at f a ts) t a.
Proof. unfold Failed_at. by rewrite foldl_app. Qed.

Lemma Failed_at_config f a ts : config (Failed_at f a ts) = config f.
Proof.
  induction ts as [|t ts IH] using rev_ind; [done|].
  by rewrite Failed_at_snoc, Failed_config.
Qed.

(** Reports that lie within [FailTimeout] of each other all stay in the
    window. *)
Lemma Failed_at_window f a (ts : list Z) :
  (∀ t t', t ∈ ts → t' ∈ ts → Go.Time_Sub t' t <= FailTimeout (config f)) →
  ∃ l, default [] (failures (Failed_at f a ts) !! a) = l ++ ts.
Proof.
  induction ts as [|tn p IH] using rev_ind; intros Hw.
  { exists (default [] (failures f !! a)). by rewrite app_nil_r. }
  destruct IH as [l Hl]; [intros t t' Ht Ht'; apply Hw; set_solver|].
  rewrite Failed_at_snoc. unfold Failed; simpl.
  rewrite lookup_insert_eq; simpl. rewrite Hl, Failed_at_config.
  destruct p as [|t1 p'].
  - rewrite app_nil_r. by eexists.
  - destruct (pop_keeps_suffix (config f) tn l t1 p') as [l' Hl'];
      [apply Hw; set_solver|].
    rewrite Hl'. exists l'. by rewrite <- app_assoc.
Qed.

(** X7. Whatever the filter has seen before, [Fails] or more reports of
    one address at times that lie within [FailTimeout] of each other mark
    it unhealthy since the last of them, and [Run] leaves it out until
    that mark is more than [FailTimeout] old. *)
Theorem burst_marks (f : passiveFilter) (a : string) (ts : list Z) (tn : Z) :
  last ts = Some tn →
  (∀ t t', t ∈ ts → t' ∈ ts → Go.Time_Sub t' t <= FailTimeout (config f)) →
  Fails (config f) <= Z.of_nat (length ts) →
  unhealthy (Failed_at f a ts) !! a = Some tn ∧
  ∀ now addrs, Go.Time_Sub now tn <= FailTimeout (config f) →
               a ∉ (Run (Failed_at f a ts) now addrs).2.
Proof.
  intros Hlast Hw Hn.
  assert (unhealthy (Failed_at f a ts) !! a = Some tn) as Hm.
  { destruct (Failed_at_window f a ts Hw) as [l Hl].
    apply last_Some in Hlast as [p ->].
    rewrite Failed_at_snoc in *. unfold Failed in *; simpl in *.
    rewrite lookup_insert_eq in Hl; simpl in Hl. rewrite Hl.
    rewrite Failed_at_config.
    assert ((Z.of_nat (length (l ++ p ++ [tn])) >=? Fails (config f)) = true)
      as ->.
    { apply Z.geb_le. rewrite !length_app in *. simpl in *. lia. }
    apply lookup_insert_eq. }
  split; [done|]. intros now addrs Hnow Hin.
  apply Run_healthy in Hin as [_ Hall]. specialize (Hall tn Hm).
  rewrite Failed_at_config in Hall. lia.
Qed.

Lemma burst_marks_witness :
  unhealthy (Failed_at (configured cfg3_30) "h1"
               [5 * Go.Second; 6 * Go.Second; 30 * Go.Second;
                35 * Go.Second]) !! "h1"
  = Some (35 * Go.Second).
Proof.
  apply (burst_marks (configured cfg3_30) "h1"
           [5 * Go.Second; 6 * Go.Second; 30 * Go.Second; 35 * Go.Second]).
  - reflexivity.
  - intros t t' Ht Ht'. simpl.
    repeat (apply elem_of_cons in Ht as [->|Ht]);
      [..|by apply elem_of_nil in Ht];
      repeat (apply elem_of_cons in Ht' as [->|Ht']);
      try (by apply elem_of_nil in Ht');
      unfold Go.Time_Sub, Go.intMin, Go.intMax, Go.Second; lia.
  - simpl. lia.
Defined.

Lemma exec_snoc f cs c : exec f (cs ++ [c]) = exec1 (exec f cs) c.
Proof. unfold exec. by rewrite foldl_app. Qed.

Lemma pop_expired_suffix c now (fs : list Z) :
  ∃ l, fs = l ++ pop_expired c now fs.
Proof.
  induction fs as [|t fs [l IH]]; simpl; [by exists []|].
  case_match; [|by exists []]. exists (t :: l). simpl. by f_equal.
Qed.

Lemma Time_Sub_diag t : Go.Time_Sub t t = 0.
Proof. unfold Go.Time_Sub, Go.intMin, Go.intMax. lia. Qed.

(** X17. For a filter made by [NewPassiveFilter c0], with [FailTimeout] that
    of its config ([c0] with the defaults applied): when
    [0 <= FailTimeout] and the clock does not go back between calls, the
    window kept for an address is in time order, holds only times at
    which that address was reported, and holds nothing more than
    [FailTimeout] older than its last entry. *)
Theorem window_within_timeout `{Defaults} (c0 : PassiveFilterConfig)
    (cs : list call) (a : string) :
  0 <= FailTimeout (applyDefaults c0) →
  StronglySorted Z.le (call_time <$> cs) →
  let w := default [] (failures (exec (NewPassiveFilter c0) cs) !! a) in
  StronglySorted Z.le w ∧
  (∀ t, t ∈ w → CallFailed t a ∈ cs) ∧
  (∀ tl t, last w = Some tl → t ∈ w →
           Go.Time_Sub tl t <= FailTimeout (applyDefaults c0)).
Proof.
  set (c := applyDefaults c0).
  intros HFT. induction cs as [|c' cs IH] using rev_ind; intros Hs w.
  { subst w. simpl. rewrite lookup_empty. simpl.
    split; [constructor|]. split; intros; by set_solver. }
  rewrite fmap_app in Hs. apply StronglySorted_app in Hs as (Hle & Hs & _).
  destruct (IH Hs) as (Hw & Hin & Hold). clear IH.
  subst w. rewrite exec_snoc.
  set (f := exec (NewPassiveFilter c0) cs) in *.
  assert (config f = c) as Hc by apply exec_config.
  destruct c' as [now b|now addrs]; cbn [exec1].
  - destruct (decide (b = a)) as [->|Hne].
    + unfold Failed; simpl. rewrite lookup_insert_eq; simpl. rewrite Hc.
      set (w := default [] (failures f !! a)) in *.
      destruct (pop_expired_suffix c now w) as [l Hl].
      assert (∀ t, t ∈ pop_expired c now w → t ∈ w) as Hsub.
      { intros t Ht. rewrite Hl. set_solver. }
      assert (∀ t, t ∈ pop_expired c now w →
                   t <= now ∧ Go.Time_Sub now t <= FailTimeout c) as Hp.
      { intros t Ht. split.
        - apply (Hle t now); [|set_solver].
          pose proof (Hin t (Hsub t Ht)) as Hcall.
          by apply (list_elem_of_fmap_2 call_time) in Hcall.
        - rewrite pop_expired_sorted in Ht
            by (by apply StronglySorted_Sorted).
          by apply list_elem_of_filter in Ht as [? _]. }
      split; [|split].
      * apply StronglySorted_app_2.
        -- intros t1 t2 Ht1 Ht2. apply list_elem_of_singleton in Ht2 as ->.
           by apply Hp.
        -- rewrite Hl in Hw. by apply StronglySorted_app_1_r in Hw.
        -- repeat constructor.
      * intros t Ht. apply elem_of_app in Ht as [Ht|Ht].
        -- apply elem_of_app. left. by apply Hin, Hsub.
        -- apply list_elem_of_singleton in Ht as ->. set_solver.
      * intros tl t. rewrite last_snoc. intros [= <-] Ht.
        apply elem_of_app in Ht as [Ht|Ht]; [by apply Hp|].
        apply list_elem_of_singleton in Ht as ->. by rewrite Time_Sub_diag.
    + unfold Failed; simpl. rewrite lookup_insert_ne by done.
      split; [done|]. split; [|done].
      intros t Ht. apply elem_of_app. left. by apply Hin.
  - rewrite Run_failures.
    split; [done|]. split; [|done].
    intros t Ht. apply elem_of_app. left. by apply Hin.
Qed.

Lemma window_within_timeout_witness :
  let cs := [CallFailed 0 "h1"; CallFailed (20 * Go.Second) "h1";
             CallFailed (25 * Go.Second) "h2";
             CallFailed (45 * Go.Second) "h1"] in
  let w := default [] (failures (exec (@NewPassiveFilter zero_defaults
                                         cfg3_30) cs) !! "h1") in
  StronglySorted Z.le w ∧
  (∀ t, t ∈ w → CallFailed t "h1" ∈ cs) ∧
  (∀ tl t, last w = Some tl → t ∈ w →
           Go.Time_Sub tl t <= 30 * Go.Second).
Proof.
  apply (@window_within_timeout zero_defaults cfg3_30
           [CallFailed 0 "h1"; CallFailed (20 * Go.Second) "h1";
            CallFailed (25 * Go.Second) "h2";
            CallFailed (45 * Go.Second) "h1"] "h1").
  - simpl. unfold Go.Second. lia.
  - simpl. unfold Go.Second. repeat constructor; lia.
Defined.

(** With the defaults [zero_defaults]: a [FailTimeout] left at zero works
    as five minutes, so the three failures mark ["h1"] and stay in its
    window; with 30s the failure at 0s has left the window by 45s. *)
Example NewPassiveFilter_with_defaults :
  config (@NewPassiveFilter zero_defaults cfg3_0)
  = {| Fails := 3; FailTimeout := 300 * Go.Second |} ∧
  config (@NewPassiveFilter zero_defaults cfg3_30) = cfg3_30 ∧
  (Run marked_default (3 * Go.Second) {["h1"; "h2"]}).2 = {["h2"]} ∧
  failures marked_default !! "h1"
  = Some [0; 1 * Go.Second; 2 * Go.Second] ∧
  failures (exec (@NewPassiveFilter zero_defaults cfg3_30)
              [CallFailed 0 "h1"; CallFailed (20 * Go.Second) "h1";
               CallFailed (45 * Go.Second) "h1"]) !! "h1"
  = Some [20 * Go.Second; 45 * Go.Second].
Proof. repeat split; compute_done. Qed.

End passive_props.

(** ** The hash ring *)

Section ring_props.
Import hashring.
Context `{Deps}.

Lemma healthy_of_cons_in hs a l :
  a ∈ hs → healthy_of hs (a :: l) = a :: healthy_of hs l.
Proof. intros Ha. unfold healthy_of. by rewrite filter_cons_True. Qed.

Lemma healthy_of_cons_out hs a l :
  a ∉ hs → healthy_of hs (a :: l) = healthy_of hs l.
Proof. intros Ha. unfold healthy_of. by rewrite filter_cons_False. Qed.

(** Once a location has been found the loop only goes on up to index
    [maxReplica]. *)
Lemma Locations_loop_found M hs nodes : ∀ i locs,
  locs ≠ [] →
  Locations_loop M hs nodes i locs
  = locs ++ healthy_of hs (take (Z.to_nat (M - i)) (Label <$> nodes)).
Proof.
  induction nodes as [|n rest IH]; intros i locs Hne; simpl.
  - by rewrite take_nil, app_nil_r.
  - assert ((Z.of_nat (length locs) =? 0) = false) as ->.
    { apply Z.eqb_neq. destruct locs; simpl in *; [done|lia]. }
    simpl. destruct (Z.ltb_spec i M) as [Hlt|Hge].
    + replace (Z.to_nat (M - i)) with (S (Z.to_nat (M - (i + 1)))) by lia.
      simpl. case_bool_decide as Hin.
      * rewrite IH by (by destruct locs).
        rewrite healthy_of_cons_in by done. by rewrite <- app_assoc.
      * rewrite IH by done. by rewrite healthy_of_cons_out.
    + replace (Z.to_nat (M - i)) with 0%nat by lia.
      by rewrite take_0, app_nil_r.
Qed.

(** Before a location is found the loop walks on whatever the index. *)
Lemma Locations_loop_searching M hs nodes : ∀ i,
  Locations_loop M hs nodes i []
  = match healthy_of hs (take (Z.to_nat (M - i)) (Label <$> nodes)) with
    | [] => option_list
              (head (healthy_of hs (drop (Z.to_nat (M - i)) (Label <$> nodes))))
    | found => found
    end.
Proof.
  induction nodes as [|n rest IH]; intros i; simpl.
  - by rewrite take_nil, drop_nil.
  - case_bool_decide as Hin.
    + rewrite Locations_loop_found by done. simpl.
      destruct (Z.ltb_spec i M) as [Hlt|Hge].
      * replace (Z.to_nat (M - i)) with (S (Z.to_nat (M - (i + 1)))) by lia.
        simpl. by rewrite healthy_of_cons_in.
      * replace (Z.to_nat (M - i)) with 0%nat by lia.
        replace (Z.to_nat (M - (i + 1))) with 0%nat by lia.
        rewrite !take_0. simpl. by rewrite healthy_of_cons_in.
    + rewrite IH. destruct (Z.ltb_spec i M) as [Hlt|Hge].
      * replace (Z.to_nat (M - i)) with (S (Z.to_nat (M - (i + 1)))) by lia.
        simpl. by rewrite healthy_of_cons_out.
      * replace (Z.to_nat (M - i)) with 0%nat by lia.
        replace (Z.to_nat (M - (i + 1))) with 0%nat by lia.
        rewrite !take_0. simpl. by rewrite healthy_of_cons_out.
Qed.

Lemma size_healthy_zero (hs : gset string) :
  (Z.of_nat (size hs) =? 0) = bool_decide (hs = ∅).
Proof.
  destruct (Z.eqb_spec (Z.of_nat (size hs)) 0) as [Hz|Hz]; symmetry.
  - apply bool_decide_eq_true. apply leibniz_equiv, size_empty_inv. lia.
  - apply bool_decide_eq_false. intros ->. by rewrite size_empty in Hz.
Qed.

(** C1. When the hash hands back as many nodes as the ring has members:
    with an empty healthy set [Locations] returns just the top-ranked node;
    otherwise it returns, in rank order, the healthy nodes among the first
    [MaxReplica] ones if there is any, and else the first healthy node
    met further down the order (nothing when no ranked node is healthy). *)
Theorem Locations_cases (r : ring) (d : Digest) :
  let nodes := GetOrderedNodes (hash r) (ShardID d)
                               (Z.of_nat (size (addrs r))) in
  let labels := Label <$> nodes in
  let k := Z.to_nat (MaxReplica (config r)) in
  length nodes = size (addrs r) →
  (healthy r = ∅ →
   ∀ top rest, labels = top :: rest → Locations r d = Return [top]) ∧
  (healthy r ≠ ∅ →
   (healthy_of (healthy r) (take k labels) ≠ [] →
    Locations r d = Return (healthy_of (healthy r) (take k labels))) ∧
   (healthy_of (healthy r) (take k labels) = [] →
    Locations r d
    = Return (option_list (head (healthy_of (healthy r) (drop k labels)))))).
Proof.
  intros nodes labels k Hlen. unfold Locations. fold nodes.
  rewrite Hlen, Z.eqb_refl, size_healthy_zero. simpl. split.
  - intros Hh top rest Hl. rewrite bool_decide_eq_true_2 by done.
    unfold labels in Hl. destruct nodes as [|n ns]; [done|].
    simpl in Hl. by injection Hl as -> _.
  - intros Hh. rewrite bool_decide_eq_false_2 by done.
    rewrite Locations_loop_searching, Z.sub_0_r. fold labels. fold k.
    split; intros Hf; [|by rewrite Hf].
    by destruct (healthy_of (healthy r) (take k labels)).
Qed.

(** C2. For a ring with at least one member, whose healthy set holds
    members only and whose hash ranks every member (as many nodes as
    members, every member among them), [Locations] returns a list of at
    least one address. *)
Theorem Locations_nonempty (r : ring) (d : Digest) :
  let nodes := GetOrderedNodes (hash r) (ShardID d)
                               (Z.of_nat (size (addrs r))) in
  addrs r ≠ ∅ →
  healthy r ⊆ addrs r →
  length nodes = size (addrs r) →
  (∀ a, a ∈ addrs r → a ∈ Label <$> nodes) →
  ∃ locs, Locations r d = Return locs ∧ (1 <= length locs)%nat.
Proof.
  intros nodes Hne Hsub Hlen Hall. unfold Locations. fold nodes.
  rewrite Hlen, Z.eqb_refl, size_healthy_zero. simpl.
  case_bool_decide as Hh.
  - destruct nodes as [|n ns] eqn:E.
    + exfalso. apply Hne. apply leibniz_equiv, size_empty_inv.
      by rewrite <- Hlen.
    + eexists. split; [done|]. simpl. lia.
  - eexists. split; [done|].
    rewrite Locations_loop_searching, Z.sub_0_r.
    set (k := Z.to_nat (MaxReplica (config r))).
    set (labels := Label <$> nodes).
    apply set_choose_L in Hh as [a Ha].
    assert (a ∈ healthy_of (healthy r) labels) as Hin.
    { apply list_elem_of_filter. split; [done|]. apply Hall. set_solver. }
    rewrite <- (take_drop k labels) in Hin. unfold healthy_of in Hin.
    rewrite filter_app in Hin. apply elem_of_app in Hin as [Hin|Hin].
    + change (a ∈ healthy_of (healthy r) (take k labels)) in Hin.
      destruct (healthy_of (healthy r) (take k labels)) as [|x xs];
        [by apply elem_of_nil in Hin|simpl; lia].
    + change (a ∈ healthy_of (healthy r) (drop k labels)) in Hin.
      destruct (healthy_of (healthy r) (take k labels)) as [|x xs];
        [|simpl; lia].
      destruct (healthy_of (healthy r) (drop k labels)) as [|y ys];
        [by apply elem_of_nil in Hin|simpl; lia].
Qed.

Lemma Locations_return (r : ring) (d : Digest) (locs : list string) :
  let labels := Label <$> GetOrderedNodes (hash r) (ShardID d)
                            (Z.of_nat (size (addrs r))) in
  let k := Z.to_nat (MaxReplica (config r)) in
  Locations r d = Return locs →
  (healthy r = ∅ ∧ ∃ rest, labels = locs ++ rest ∧ length locs = 1%nat) ∨
  (healthy r ≠ ∅ ∧
   locs = match healthy_of (healthy r) (take k labels) with
          | [] => option_list (head (healthy_of (healthy r) (drop k labels)))
          | found => found
          end).
Proof.
  intros labels k. unfold Locations. case_match; [done|].
  rewrite size_healthy_zero. case_bool_decide as Hh.
  - destruct (GetOrderedNodes _ _ _) as [|n ns] eqn:E; [done|].
    intros [= <-]. left. split; [done|]. exists (Label <$> ns).
    split; [|done]. by subst labels.
  - intros [= <-]. right. split; [done|].
    by rewrite Locations_loop_searching, Z.sub_0_r.
Qed.

(** X8. What [Locations] returns is a sub-list of the node labels in rank
    order, of at most [max 1 MaxReplica] addresses; it is a single address
    when no host is healthy, and otherwise holds healthy hosts only. *)
Theorem Locations_result (r : ring) (d : Digest) (locs : list string) :
  let labels := Label <$> GetOrderedNodes (hash r) (ShardID d)
                            (Z.of_nat (size (addrs r))) in
  Locations r d = Return locs →
  locs `sublist_of` labels ∧
  Z.of_nat (length locs) <= Z.max 1 (MaxReplica (config r)) ∧
  (healthy r = ∅ → length locs = 1%nat) ∧
  (healthy r ≠ ∅ → Forall (λ a, a ∈ healthy r) locs).
Proof.
  intros labels Hret.
  apply Locations_return in Hret. cbv zeta in Hret. fold labels in Hret.
  destruct Hret as [[Hh (rest & Hl & Hlen)]|[Hh ->]].
  - rewrite Hl. split; [apply sublist_inserts_r; done|].
    split; [lia|]. split; [done|]. intros; done.
  - set (k := Z.to_nat (MaxReplica (config r))).
    destruct (healthy_of (healthy r) (take k labels)) as [|x xs] eqn:E.
    + destruct (head (healthy_of (healthy r) (drop k labels))) as [y|] eqn:Ey;
        simpl.
      * apply head_Some_elem_of, list_elem_of_filter in Ey as [Hy Hin].
        split; [apply singleton_sublist_l;
                eapply elem_of_sublist; [exact Hin|apply sublist_drop]|].
        split; [lia|]. split; [done|]. intros _. by constructor.
      * split; [apply sublist_nil_l|]. split; [lia|]. split; [done|].
        intros _. constructor.
    + rewrite <- E. split; [|split; [|split; [done|]]].
      * unfold healthy_of. etrans; [apply sublist_filter|apply sublist_take].
      * unfold healthy_of.
        pose proof (length_filter (λ a, a ∈ healthy r) (take k labels)).
        rewrite length_take in *. lia.
      * intros _. apply Forall_forall. intros a Ha.
        by apply list_elem_of_filter in Ha as [? _].
Qed.

End ring_props.

Section refresh_props.
Import hashring.
Context `{Builder}.

(** X9. [Refresh] installs the latest membership and health; it notifies
    every watcher, once and with the latest membership, when the
    membership has changed, and nobody when it has not. A second [Refresh]
    with the same membership keeps the hash whatever the health, notifies
    nobody, and with the same health leaves the ring as it is. *)
Theorem Refresh_twice {W : Type} (r : ring) (ws : list W)
    (latest hs : gset string) :
  let r1 := (Refresh r ws latest hs).1 in
  addrs r1 = latest ∧ healthy r1 = hs ∧ config r1 = config r ∧
  (Refresh r ws latest hs).2
    = (if bool_decide (addrs r = latest) then []
       else (λ w, (w, latest)) <$> ws) ∧
  (addrs r = latest → hash r1 = hash r) ∧
  (∀ hs', hash (Refresh r1 ws latest hs').1 = hash r1 ∧
          (Refresh r1 ws latest hs').2 = []) ∧
  Refresh r1 ws latest hs = (r1, []).
Proof.
  intros r1.
  assert (addrs r1 = latest) as Ha.
  { unfold r1, Refresh. by case_bool_decide. }
  assert (healthy r1 = hs) as Hh.
  { unfold r1, Refresh. by case_bool_decide. }
  split; [done|]. split; [done|].
  split; [unfold r1, Refresh; by case_bool_decide|].
  split; [unfold Refresh; by case_bool_decide|].
  split; [intros He; unfold r1, Refresh; by rewrite bool_decide_eq_true_2|].
  split.
  - intros hs'. unfold Refresh.
    by rewrite !bool_decide_eq_true_2 by done.
  - unfold Refresh. rewrite bool_decide_eq_true_2 by done.
    f_equal. clearbody r1. destruct r1; simpl in *. by subst.
Qed.

(** X10. A ring refreshed from a passive filter: as long as the filter
    lets some member through, every address [Locations] returns is a
    member that the filter does not hold a mark of at most [FailTimeout]
    against. *)
Theorem Locations_behind_passive_filter {W : Type} (r : ring) (ws : list W)
    (latest : gset string) (f : PassiveFilter.passiveFilter) (now : Z)
    (d : Digest) (locs : list string) :
  let hs := (PassiveFilter.Run f now latest).2 in
  let r1 := (Refresh r ws latest hs).1 in
  hs ≠ ∅ →
  Locations r1 d = Return locs →
  ∀ a, a ∈ locs →
    a ∈ addrs r1 ∧
    ∀ t, PassiveFilter.unhealthy f !! a = Some t →
         PassiveFilter.FailTimeout (PassiveFilter.config f)
         < Go.Time_Sub now t.
Proof.
  intros hs r1 Hne Hret a Ha.
  assert (addrs r1 = latest) as Hl by (unfold r1, Refresh; by case_bool_decide).
  assert (healthy r1 = hs) as Hh by (unfold r1, Refresh; by case_bool_decide).
  apply Locations_return in Hret as [[He _]|[_ ->]]; [congruence|].
  assert (a ∈ hs) as Hin.
  { rewrite Hh in Ha.
    destruct (healthy_of hs (take _ _)) as [|x xs] eqn:E.
    - destruct (head (healthy_of hs (drop _ _))) as [y|] eqn:Ey;
        simpl in Ha; [|by apply elem_of_nil in Ha].
      apply list_elem_of_singleton in Ha as ->.
      by apply head_Some_elem_of, list_elem_of_filter in Ey as [? _].
    - rewrite <- E in Ha. by apply list_elem_of_filter in Ha as [? _]. }
  rewrite Hl. by apply Run_healthy in Hin.
Qed.

End refresh_props.

Section ring_witnesses.
Import hashring.

Example Locations_ring3 :
  Locations (ring3 {["h1"; "h2"; "h3"]}) "k" = Return ["h2"; "h3"] ∧
  Locations (ring3 {["h9"]}) "k" = Return [] ∧
  Locations ring0 "k" = Panic.
Proof. repeat split; vm_compute; reflexivity. Qed.

Lemma Locations_cases_witness :
  Locations (ring3 ∅) "k" = Return ["h2"] ∧
  Locations (ring3 {["h1"; "h3"]}) "k" = Return ["h3"] ∧
  Locations (ring3 {["h1"]}) "k" = Return ["h1"].
Proof.
  split; [|split].
  - destruct (@Locations_cases list_deps (ring3 ∅) "k" eq_refl) as [Hc _].
    exact (Hc eq_refl "h2" ["h3"; "h1"] eq_refl).
  - destruct (@Locations_cases list_deps (ring3 {["h1"; "h3"]}) "k" eq_refl)
      as [_ Hc].
    destruct Hc as [Hc _]; [compute_done|].
    rewrite Hc; [vm_compute; reflexivity|compute_done].
  - destruct (@Locations_cases list_deps (ring3 {["h1"]}) "k" eq_refl)
      as [_ Hc].
    destruct Hc as [_ Hc]; [compute_done|].
    rewrite Hc; vm_compute; reflexivity.
Defined.

Lemma Locations_nonempty_witness :
  ∃ locs, Locations (ring3 {["h1"]}) "k" = Return locs ∧
          (1 <= length locs)%nat.
Proof.
  apply (@Locations_nonempty list_deps (ring3 {["h1"]}) "k").
  - compute_done.
  - compute_done.
  - reflexivity.
  - intros a Ha. change (a ∈ ({["h1"; "h2"; "h3"]} : gset string)) in Ha.
    change (a ∈ ["h2"; "h3"; "h1"]). set_solver.
Defined.

Lemma Locations_result_witness :
  ["h3"] `sublist_of` ["h2"; "h3"; "h1"] ∧
  Z.of_nat (length ["h3"]) <= Z.max 1 2 ∧
  (({["h1"; "h3"]} : gset string) = ∅ → length ["h3"] = 1%nat) ∧
  (({["h1"; "h3"]} : gset string) ≠ ∅ →
   Forall (λ a, a ∈ ({["h1"; "h3"]} : gset string)) ["h3"]).
Proof.
  assert (@Locations list_deps (ring3 {["h1"; "h3"]}) "k" = Return ["h3"])
    as Hret by (vm_compute; reflexivity).
  exact (@Locations_result list_deps (ring3 {["h1"; "h3"]}) "k" ["h3"] Hret).
Defined.

Lemma Locations_behind_passive_filter_witness :
  "h2" ∈ ({["h1"; "h2"; "h3"]} : gset string) ∧
  ∀ t, PassiveFilter.unhealthy PassiveFilter.marked !! "h2" = Some t →
       30 * Go.Second < Go.Time_Sub (3 * Go.Second) t.
Proof.
  assert ((PassiveFilter.Run PassiveFilter.marked (3 * Go.Second)
             {["h1"; "h2"; "h3"]}).2 ≠ ∅) as Hne by compute_done.
  assert (@Locations list_deps (refreshed3 ring0) "k" = Return ["h2"])
    as Hret by (vm_compute; reflexivity).
  assert ("h2" ∈ ["h2"]) as Hin by set_solver.
  exact (@Locations_behind_passive_filter list_deps list_builder nat ring0
           [7%nat] {["h1"; "h2"; "h3"]} PassiveFilter.marked (3 * Go.Second)
           "k" ["h2"] Hne Hret "h2" Hin).
Defined.

End ring_witnesses.

(** ** The interval trap *)

Section trap_props.
Import dedup.

Lemma ready_spec t now : ready t now = true ↔ prev t + interval t < now.
Proof. unfold ready, Go.Time_After, Go.Time_Add. apply Z.ltb_lt. Qed.

Lemma Trap_cases t c log :
  (Trap t c log = (t, log) ∧
   ¬ (prev t + interval t < at_check c ∧ prev t + interval t < at_recheck c)) ∨
  (Trap t c log
   = ({| interval := interval t; prev := at_done c |},
      log ++ [{| started := at_recheck c; finished := at_done c |}]) ∧
   prev t + interval t < at_check c ∧ prev t + interval t < at_recheck c).
Proof.
  unfold Trap.
  destruct (ready t (at_check c)) eqn:H1; simpl.
  - destruct (ready t (at_recheck c)) eqn:H2; simpl.
    + right. apply ready_spec in H1, H2. done.
    + left. split; [done|]. intros [_ H3]. apply ready_spec in H3. congruence.
  - left. split; [done|]. intros [H3 _]. apply ready_spec in H3. congruence.
Qed.

Lemma spaced_snoc i p log r :
  spaced i p (log ++ [r]) ↔
  spaced i p log ∧ last_finished p log + i < started r.
Proof.
  revert p. induction log as [|x log IH]; intros p; simpl.
  - unfold last_finished; simpl. tauto.
  - rewrite IH. unfold last_finished.
    destruct log as [|y log]; simpl; [tauto|].
    rewrite !last_cons. destruct (last log); simpl; tauto.
Qed.

Lemma last_finished_snoc p log r :
  last_finished p (log ++ [r]) = finished r.
Proof. unfold last_finished. by rewrite last_snoc. Qed.

Lemma Traps_spaced i p cs : ∀ t log,
  interval t = i → prev t = last_finished p log → spaced i p log →
  interval (Traps t cs log).1 = i ∧
  prev (Traps t cs log).1 = last_finished p (Traps t cs log).2 ∧
  spaced i p (Traps t cs log).2.
Proof.
  induction cs as [|c cs IH]; intros t log Hi Hp Hs; [done|].
  unfold Traps; simpl. fold (Traps (Trap t c log).1 cs (Trap t c log).2).
  destruct (Trap_cases t c log) as [[-> _]|[-> [_ Hlt]]]; simpl.
  - by apply IH.
  - apply IH; simpl; [done|by rewrite last_finished_snoc|].
    apply spaced_snoc. split; [done|]. simpl. lia.
Qed.

Lemma spaced_lower i p log :
  0 <= i → Forall (λ r, started r <= finished r) log →
  spaced i p log → Forall (λ r, p + i < started r) log.
Proof.
  intros Hi Hm. revert p.
  induction Hm as [|r log Hr _ IH]; intros p Hs; [done|].
  destruct Hs as [Hp Hs]. constructor; [done|].
  eapply Forall_impl; [exact (IH _ Hs)|]. simpl. intros r'. lia.
Qed.

Lemma spaced_pairwise i p log :
  0 <= i → Forall (λ r, started r <= finished r) log → spaced i p log →
  ∀ (m n : nat) rm rn, (m < n)%nat → log !! m = Some rm → log !! n = Some rn →
    started rm + i < started rn.
Proof.
  intros Hi Hm. revert p.
  induction Hm as [|r log Hr Hm IH]; intros p Hs m n rm rn Hlt Hlm Hln;
    [done|].
  destruct Hs as [Hp Hs]. destruct n as [|n]; [lia|]. simpl in Hln.
  destruct m as [|m]; simpl in Hlm.
  - injection Hlm as <-.
    pose proof (spaced_lower i (finished r) log Hi Hm Hs) as Hall.
    rewrite Forall_lookup in Hall. specialize (Hall n rn Hln). simpl in Hall.
    lia.
  - eapply (IH _ Hs m n); [lia|done|done].
Qed.

(** C8. A [Trap] call runs the task only when both of its clock readings
    are strictly more than [interval] past [prev], and then sets [prev] to
    the reading taken after the task returned; otherwise it changes
    nothing. Over any sequence of calls on a new trap every run therefore
    starts more than [interval] after the previous one finished (after the
    creation time, for the first), and, with a clock that does not go back
    during a run and [0 <= interval], any two runs start more than
    [interval] apart. *)
Theorem Trap_runs_once_per_interval (i : Z) (created : Z)
    (cs : list readings) :
  (∀ t c log,
     (Trap t c log = (t, log) ∧
      ¬ (prev t + interval t < at_check c ∧
         prev t + interval t < at_recheck c)) ∨
     (Trap t c log
      = ({| interval := interval t; prev := at_done c |},
         log ++ [{| started := at_recheck c; finished := at_done c |}]) ∧
      prev t + interval t < at_check c ∧
      prev t + interval t < at_recheck c)) ∧
  let end_ := Traps (NewIntervalTrap i created) cs [] in
  spaced i created end_.2 ∧
  prev end_.1 = last_finished created end_.2 ∧
  (0 <= i → Forall (λ r, started r <= finished r) end_.2 →
   ∀ (m n : nat) rm rn, (m < n)%nat →
     end_.2 !! m = Some rm → end_.2 !! n = Some rn →
     started rm + i < started rn).
Proof.
  split; [apply Trap_cases|]. intros end_.
  destruct (Traps_spaced i created cs (NewIntervalTrap i created) [])
    as (_ & Hp & Hs); [done|done|done|].
  split; [done|]. split; [done|].
  intros Hi Hm. by apply (spaced_pairwise i created).
Qed.

Example Traps_four_calls :
  Traps (NewIntervalTrap 10 0) four_calls []
  = ({| interval := 10; prev := 40 |},
     [ {| started := 12; finished := 20 |};
       {| started := 31; finished := 40 |} ]).
Proof. reflexivity. Qed.

Lemma spaced_nth i p log :
  0 <= i → Forall (λ r, started r <= finished r) log → spaced i p log →
  ∀ (n : nat) r, log !! n = Some r → p + (Z.of_nat n + 1) * i < started r.
Proof.
  intros Hi Hm. revert p.
  induction Hm as [|r0 log Hr Hm IH]; intros p Hs n r Hn; [done|].
  destruct Hs as [Hp Hs]. destruct n as [|n]; simpl in Hn.
  - injection Hn as <-. lia.
  - specialize (IH _ Hs n r Hn). nia.
Qed.

(** X11. With [0 <= interval] and a clock that does not go back during a
    run, the [n]-th run of the task over any sequence of [Trap] calls on a
    new trap starts more than [n] intervals after the trap was made. *)
Theorem Trap_nth_run (i : Z) (created : Z) (cs : list readings)
    (n : nat) (r : task_run) :
  0 <= i →
  Forall (λ r, started r <= finished r)
         (Traps (NewIntervalTrap i created) cs []).2 →
  (Traps (NewIntervalTrap i created) cs []).2 !! n = Some r →
  created + (Z.of_nat n + 1) * i < started r.
Proof.
  intros Hi Hm Hn.
  destruct (Traps_spaced i created cs (NewIntervalTrap i created) [])
    as (_ & _ & Hs); [done|done|done|].
  by apply (spaced_nth i created _ Hi Hm Hs).
Qed.

Lemma Trap_nth_run_witness :
  0 + (Z.of_nat 1 + 1) * 10 < started {| started := 31; finished := 40 |}.
Proof.
  apply (Trap_nth_run 10 0 four_calls 1).
  - lia.
  - repeat constructor; simpl; lia.
  - reflexivity.
Defined.

End trap_props.

(** ** Reloading the scheduler *)

Section reload_props.
Import scheduler.
Context `{Env}.

(** C7. [Reload] takes the lock, stops the current scheduler, calls
    [newScheduler] with the new config and the current scheduler's torrent
    archive, stats, peer context, announce client and network events, and,
    if that succeeds, installs the new scheduler and starts it on a queue
    obtained from a new call of [aq]; the lock is released on each way out.
    It returns when both steps succeed; when either fails it ends in
    [log.Fatalf] and does not return. *)
Theorem Reload_sequence (rs : reloadableScheduler) (config : Config)
    (w : world) :
  let s := embedded rs in
  let before :=
    [EvLock; EvStop s;
     EvNewScheduler config (torrentArchive s) (stats s) (pctx s)
                    (announceClient s) (netevents s)] in
  match newScheduler config (torrentArchive s) (stats s) (pctx s)
                     (announceClient s) (netevents s) with
  | inl err =>
      let e := Errorf "create new scheduler: %s" err in
      Reload rs config w =
      ((Exited, rs),
       {| trace := trace w ++ before ++
            [EvUnlock; EvFatalf "Failed to reload scheduler config: %s" e];
          aq_calls := aq_calls w |})
  | inr n =>
      let q := aq rs (aq_calls w) in
      let rs' := {| embedded := n; aq := aq rs |} in
      match start n q with
      | Some err =>
          let e := Errorf "start new scheduler: %s" err in
          Reload rs config w =
          ((Exited, rs'),
           {| trace := trace w ++ before ++
                [EvAq q; EvStart n q; EvUnlock;
                 EvFatalf "Failed to reload scheduler config: %s" e];
              aq_calls := S (aq_calls w) |})
      | None =>
          Reload rs config w =
          ((Returned, rs'),
           {| trace := trace w ++ before ++ [EvAq q; EvStart n q; EvUnlock];
              aq_calls := S (aq_calls w) |})
      end
  end.
Proof.
  intros s before.
  unfold Reload, reload, mbind, mret, M_bind, M_ret, emit, call_aq.
  fold s. cbn [fst snd aq embedded trace aq_calls].
  destruct (newScheduler config (torrentArchive s) (stats s) (pctx s)
              (announceClient s) (netevents s)) as [err|n];
    cbn [fst snd aq embedded trace aq_calls].
  - unfold before. by rewrite <- !app_assoc.
  - destruct (start n (aq rs (aq_calls w))) as [err|];
      cbn [fst snd aq embedded trace aq_calls];
      unfold before; by rewrite <- !app_assoc.
Qed.

Lemma handover_app cur tr1 mid tr2 out :
  handover cur tr1 mid → handover mid tr2 out → handover cur (tr1 ++ tr2) out.
Proof.
  induction 1; simpl; intros H2; [done|..]; constructor; auto.
Qed.

Lemma Reload_handover (rs : reloadableScheduler) (config : Config)
    (w : world) :
  ∃ tr out,
    trace (Reload rs config w).2 = trace w ++ tr ∧
    handover (Some (embedded rs)) tr out ∧
    ((Reload rs config w).1.1 = Returned →
     out = Some (embedded (Reload rs config w).1.2)).
Proof.
  unfold Reload, reload, mbind, mret, M_bind, M_ret, emit, call_aq.
  cbn [fst snd aq embedded trace aq_calls].
  destruct (newScheduler _ _ _ _ _ _) as [err|n];
    cbn [fst snd aq embedded trace aq_calls].
  - eexists _, None. rewrite <- !app_assoc. split; [done|]. split; [|done].
    simpl. apply handover_quiet; [done|]. apply handover_stop.
    repeat (apply handover_quiet; [done|]). constructor.
  - destruct (start n _) as [err|];
      cbn [fst snd aq embedded trace aq_calls];
      eexists _, (Some n); rewrite <- !app_assoc; (split; [done|]);
      (split; [|done]); simpl;
      (apply handover_quiet; [done|]); apply handover_stop;
      do 2 (apply handover_quiet; [done|]); apply handover_start;
      repeat (apply handover_quiet; [done|]); constructor.
Qed.

(** X12. Over any number of reloads in a row, as far as the process gets:
    every scheduler is started only after the one before it has been
    stopped, the one stopped is each time the one then installed, and when
    all reloads return the installed scheduler is the one running. *)
Theorem Reloads_handover (configs : list Config) :
  ∀ (rs : reloadableScheduler) (w : world),
  ∃ tr out,
    trace (Reloads rs configs w).2 = trace w ++ tr ∧
    handover (Some (embedded rs)) tr out ∧
    ((Reloads rs configs w).1.1 = Returned →
     out = Some (embedded (Reloads rs configs w).1.2)).
Proof.
  induction configs as [|c rest IH]; intros rs w.
  - exists [], (Some (embedded rs)). simpl. rewrite app_nil_r.
    split; [done|]. split; [constructor|done].
  - destruct (Reload_handover rs c w) as (tr1 & mid & Ht1 & Hh1 & Hr1).
    cbn [Reloads]. unfold mbind, M_bind. cbv zeta.
    destruct (Reload rs c w) as [[e rs1] w1] eqn:E; cbn [fst snd] in *.
    destruct e.
    + destruct (IH rs1 w1) as (tr2 & out & Ht2 & Hh2 & Hr2).
      exists (tr1 ++ tr2), out. rewrite Ht2, Ht1, app_assoc.
      split; [done|]. split; [|done].
      eapply handover_app; [exact Hh1|]. by rewrite Hr1.
    + exists tr1, mid. unfold mret, M_ret. cbn [fst snd].
      split; [done|]. split; [done|]. done.
Qed.

End reload_props.

Section reload_examples.
Import scheduler.

Example Reloads_three :
  (@Reloads toy_env toy_rs [5; 7; 0; 9] toy_world).1.1 = Exited ∧
  length (trace (@Reloads toy_env toy_rs [5; 7; 0; 9] toy_world).2) = 17%nat.
Proof. split; vm_compute; reflexivity. Qed.

Example Reload_examples :
  @Reload toy_env toy_rs 5 toy_world
  = ((Returned, @makeReloadable toy_env (toy_sched 5) (aq toy_rs)),
     {| trace := toy_trace; aq_calls := 2 |}) ∧
  (@Reload toy_env toy_rs 0 toy_world).1.1 = Exited ∧
  (@Reload toy_env toy_rs 500 toy_world).1.1 = Exited.
Proof. repeat split; vm_compute; reflexivity. Qed.

End reload_examples.

(** ** The simple store *)

Section store_props.
Import store.
Context `{FileOps}.

Lemma commits_or_exists_nil (name : string) (r : reader) (uuid : string)
    (d : disk) :
  commits_or_exists name r uuid d → (CreateCacheFile name r uuid d).1 = None.
Proof.
  intros (d1 & w & d2 & n & d3 & d4 & res & Hc & Hg & Hcp & Hmv & Hres).
  unfold CreateCacheFile. rewrite Hc; simpl. rewrite Hg; simpl.
  rewrite Hcp; simpl. rewrite Hmv; simpl.
  destruct res as [err|]; [|done]. by rewrite Hres.
Qed.

Section store_contract.
Context (cached : string → disk → Prop) (HC : CacheContract cached).

Lemma close_and_delete_cached c w tmp d :
  cached c d → cached c (close_and_delete w tmp d).
Proof.
  intros Hd. unfold close_and_delete.
  by apply (keep_delete _ HC), (keep_close _ HC).
Qed.

(** A commit that succeeds, or is refused because the file exists, leaves
    the name cached. *)
Lemma MoveUploadFileToCache_cached uploadName cacheName d :
  (MoveUploadFileToCache uploadName cacheName d).1 = None ∨
  (∃ e, (MoveUploadFileToCache uploadName cacheName d).1 = Some e ∧
        IsExist e = true) →
  cached cacheName (MoveUploadFileToCache uploadName cacheName d).2.
Proof.
  unfold MoveUploadFileToCache.
  destruct (GetFilePath uploadName d) as [err|path] eqn:Hp; simpl.
  - intros [?|(e & [= <-] & He)]; [done|].
    by rewrite (path_error _ HC _ _ _ Hp) in He.
  - intros Hm. by apply (keep_delete _ HC), (move_cached _ HC).
Qed.

Lemma CreateCacheFile_nil_cached name r uuid d :
  (CreateCacheFile name r uuid d).1 = None →
  cached name (CreateCacheFile name r uuid d).2.
Proof.
  unfold CreateCacheFile.
  destruct (CreateUploadFile _ 0 d) as [[e1|] d1]; [done|]; simpl.
  destruct (GetUploadFileReadWriter _ d1) as [[e2|w] d2]; [done|]; simpl.
  destruct (Copy w r d2) as [[n [e3|]] d3]; [done|]; simpl.
  destruct (MoveUploadFileToCache _ name d3) as [[e4|] d4] eqn:Hmv; simpl.
  - destruct (IsExist e4) eqn:He; [|done]. simpl. intros _.
    apply close_and_delete_cached.
    pose proof (MoveUploadFileToCache_cached (name +:+ "." +:+ uuid) name d3)
      as Hc.
    rewrite Hmv in Hc. apply Hc. right. by exists e4.
  - intros _. apply close_and_delete_cached.
    pose proof (MoveUploadFileToCache_cached (name +:+ "." +:+ uuid) name d3)
      as Hc.
    rewrite Hmv in Hc. apply Hc. by left.
Qed.

Lemma CreateCacheFile_cached_nil name r uuid d :
  cached name d → uploads_ok name r uuid d →
  (CreateCacheFile name r uuid d).1 = None.
Proof.
  intros Hd (d1 & w & d2 & n & d3 & path & Hc & Hg & Hcp & Hp).
  assert (cached name d3) as Hd3.
  { replace d3 with (Copy w r d2).2 by (by rewrite Hcp).
    apply (keep_copy _ HC).
    replace d2 with (GetUploadFileReadWriter (name +:+ "." +:+ uuid) d1).2
      by (by rewrite Hg).
    apply (keep_open _ HC).
    replace d1 with (CreateUploadFile (name +:+ "." +:+ uuid) 0 d).2
      by (by rewrite Hc).
    by apply (keep_create _ HC). }
  destruct (move_exists _ HC name path d3 Hd3) as (e & Hm & He).
  unfold CreateCacheFile. rewrite Hc; simpl. rewrite Hg; simpl.
  rewrite Hcp; simpl. unfold MoveUploadFileToCache. rewrite Hp; simpl.
  rewrite Hm. by rewrite He.
Qed.

(** C10. For file operations that keep to [CacheContract]: when a cache
    file for [name] is already there and the temporary upload file can be
    written, [CreateCacheFile] returns [nil], the refusal of the commit
    being taken as success, and the cache file is still there. A call
    that returns [nil] leaves a cache file for [name], so a second call
    for the same name whose temporary upload file can be written returns
    [nil] too. *)
Theorem CreateCacheFile_idempotent (name : string) (r : reader)
    (uuid : string) (d : disk) :
  (cached name d → uploads_ok name r uuid d →
   (CreateCacheFile name r uuid d).1 = None ∧
   cached name (CreateCacheFile name r uuid d).2) ∧
  ((CreateCacheFile name r uuid d).1 = None →
   cached name (CreateCacheFile name r uuid d).2 ∧
   ∀ r2 uuid2,
     uploads_ok name r2 uuid2 (CreateCacheFile name r uuid d).2 →
     (CreateCacheFile name r2 uuid2 (CreateCacheFile name r uuid d).2).1
     = None).
Proof.
  split.
  - intros Hd Hu.
    pose proof (CreateCacheFile_cached_nil name r uuid d Hd Hu) as Hnil.
    split; [done|]. by apply CreateCacheFile_nil_cached.
  - intros Hnil.
    pose proof (CreateCacheFile_nil_cached name r uuid d Hnil) as Hd.
    split; [done|]. intros r2 uuid2 Hu.
    by apply CreateCacheFile_cached_nil.
Qed.

End store_contract.

(** X13. [CreateCacheFile] returns [nil] exactly when the temporary upload
    file is created, opened and written and the commit either succeeds or
    reports that the cache file exists; any other outcome is reported as a
    [fmt.Errorf] error that names the step that failed. *)
Theorem CreateCacheFile_nil_iff (name : string) (r : reader) (uuid : string)
    (d : disk) :
  ((CreateCacheFile name r uuid d).1 = None ↔
   commits_or_exists name r uuid d) ∧
  ((CreateCacheFile name r uuid d).1 = None ∨
   ∃ format err,
     (CreateCacheFile name r uuid d).1 = Some (Errorf format err) ∧
     format ∈ ["create upload file: %s"; "get upload writer: %s";
               "copy: %s"; "move upload file to cache: %s"]).
Proof.
  split; [split; [|apply commits_or_exists_nil]|].
  - unfold CreateCacheFile, commits_or_exists.
    destruct (CreateUploadFile _ 0 d) as [[e1|] d1] eqn:E1; [done|]; simpl.
    destruct (GetUploadFileReadWriter _ d1) as [[e2|w] d2] eqn:E2; [done|].
    simpl.
    destruct (Copy w r d2) as [[n [e3|]] d3] eqn:E3; [done|]; simpl.
    destruct (MoveUploadFileToCache _ name d3) as [[e4|] d4] eqn:E4; simpl.
    + destruct (IsExist e4) eqn:E5; [|done]. intros _.
      exists d1, w, d2, n, d3, d4, (Some e4). by rewrite E2, E3, E4.
    + intros _. exists d1, w, d2, n, d3, d4, None. by rewrite E2, E3, E4.
  - unfold CreateCacheFile.
    destruct (CreateUploadFile _ 0 d) as [[e1|] d1]; simpl;
      [right; eexists _, _; split; [done|set_solver]|].
    destruct (GetUploadFileReadWriter _ d1) as [[e2|w] d2]; simpl;
      [right; eexists _, _; split; [done|set_solver]|].
    destruct (Copy w r d2) as [[n [e3|]] d3]; simpl;
      [right; eexists _, _; split; [done|set_solver]|].
    destruct (MoveUploadFileToCache _ name d3) as [[e4|] d4]; simpl;
      [|by left].
    destruct (IsExist e4); simpl;
      [by left|right; eexists _, _; split; [done|set_solver]].
Qed.

(** X14. Once the temporary upload file has been created, the last thing
    [CreateCacheFile] does to the disk, on every way out, is to delete it;
    when it could not be created nothing else is done. *)
Theorem CreateCacheFile_cleans_up (name : string) (r : reader)
    (uuid : string) (d : disk) :
  let tmp := name +:+ "." +:+ uuid in
  ((CreateUploadFile tmp 0 d).1 ≠ None →
   (CreateCacheFile name r uuid d).2 = (CreateUploadFile tmp 0 d).2) ∧
  ((CreateUploadFile tmp 0 d).1 = None →
   ∃ d', (CreateCacheFile name r uuid d).2 = (DeleteUploadFile tmp d').2).
Proof.
  intros tmp. split.
  - unfold CreateCacheFile. fold tmp.
    by destruct (CreateUploadFile tmp 0 d) as [[e1|] d1].
  - unfold CreateCacheFile, close_and_delete. fold tmp.
    destruct (CreateUploadFile tmp 0 d) as [[e1|] d1]; [done|]; simpl.
    intros _.
    destruct (GetUploadFileReadWriter tmp d1) as [[e2|w] d2]; simpl;
      [by eexists|].
    destruct (Copy w r d2) as [[n [e3|]] d3]; simpl; [by eexists|].
    destruct (MoveUploadFileToCache tmp name d3) as [[e4|] d4]; simpl;
      [|by eexists].
    destruct (IsExist e4); simpl; by eexists.
Qed.

End store_props.

Section store_witness.
Import store.

(** On the in-memory disk: whenever the cache file is already there and the
    temporary name is free, the commit is refused with [EEXIST] and
    [CreateCacheFile] returns [nil]. *)
Lemma mem_CreateCacheFile_existing (name r uuid : string) (d : mem_disk) :
  upload d !! (name +:+ "." +:+ uuid) = None →
  is_Some (cache d !! name) →
  @commits_or_exists mem_ops name r uuid d ∧
  (@CreateCacheFile mem_ops name r uuid d).1 = None.
Proof.
  intros Hfree [content Hc].
  assert (@commits_or_exists mem_ops name r uuid d) as Hce.
  { unfold commits_or_exists, MoveUploadFileToCache; simpl.
    rewrite Hfree. do 7 eexists.
    split; [reflexivity|]. simpl. rewrite lookup_insert_eq.
    split; [reflexivity|]. simpl. rewrite lookup_insert_eq.
    split; [reflexivity|]. simpl. rewrite lookup_insert_eq, Hc. simpl.
    rewrite lookup_insert_eq. split; reflexivity. }
  split; [exact Hce|]. by apply (@commits_or_exists_nil mem_ops).
Qed.

Lemma mem_contract : @CacheContract mem_ops mem_cached.
Proof.
  unfold mem_cached. split; simpl.
  - intros c p d [x Hx]. rewrite Hx. by exists EEXIST.
  - intros c p d.
    destruct (cache d !! c) as [x|] eqn:Hx; simpl; [by rewrite Hx|].
    destruct (upload d !! p); simpl.
    + by rewrite lookup_insert_eq.
    + intros [[=]|(e & [= <-] & [=])].
  - intros n d e. by destruct (upload d !! n); intros [= <-].
  - intros c n l d Hd. by destruct (upload d !! n).
  - intros c n d Hd. by destruct (upload d !! n).
  - intros c n d Hd. by destruct (upload d !! n).
  - done.
  - intros c w r d Hd. by destruct (upload d !! w).
Qed.

Lemma CreateCacheFile_idempotent_witness :
  (@CreateCacheFile mem_ops "blob" "data" "u1" mem_empty).1 = None ∧
  mem_cached "blob" mem_once ∧
  (@MoveUploadFileToCache mem_ops "blob.u2" "blob"
     (@Copy mem_ops "blob.u2" "other"
        (@CreateUploadFile mem_ops "blob.u2" 0 mem_once).2).2).1
    = Some EEXIST ∧
  (@CreateCacheFile mem_ops "blob" "other" "u2" mem_once).1 = None ∧
  cache (@CreateCacheFile mem_ops "blob" "other" "u2" mem_once).2 !! "blob"
  = Some "data".
Proof.
  assert ((@CreateCacheFile mem_ops "blob" "data" "u1" mem_empty).1 = None)
    as Hfirst by (vm_compute; reflexivity).
  destruct (@CreateCacheFile_idempotent mem_ops mem_cached mem_contract
              "blob" "data" "u1" mem_empty) as [_ Htwice].
  destruct (Htwice Hfirst) as [Hcached Hsecond].
  split; [exact Hfirst|]. split; [exact Hcached|].
  split; [vm_compute; reflexivity|].
  split; [|vm_compute; reflexivity].
  apply Hsecond.
  do 6 eexists. repeat split; vm_compute; reflexivity.
Defined.

End store_witness.

(** ** The preload handler *)

Section preload_props.
Import agentserver.

Lemma Split_nonempty s c : Split s c ≠ [].
Proof.
  destruct s as [|x rest]; simpl; [done|].
  destruct (Ascii.eqb x c); [done|]. by destruct (Split rest c).
Qed.

Lemma Split_length s c : length (Split s c) = S (occurrences c s).
Proof.
  induction s as [|x rest IH]; simpl; [done|].
  destruct (Ascii.eqb x c); simpl; [by rewrite IH|].
  pose proof (Split_nonempty rest c).
  destruct (Split rest c) as [|p ps]; [done|]. simpl in *. done.
Qed.

Lemma Split_one s c b : Split s c = [b] → s = b.
Proof.
  revert b. induction s as [|x rest IH]; intros b Hs; simpl in Hs.
  - by injection Hs as <-.
  - destruct (Ascii.eqb x c).
    + injection Hs as _ Hs. by apply Split_nonempty in Hs.
    + destruct (Split rest c) as [|p ps] eqn:Hr;
        [by apply Split_nonempty in Hr|].
      injection Hs as <- ->. by rewrite (IH p eq_refl).
Qed.

(** Exactly two pieces: the string is the first piece, the separator and
    the second piece, and the separator is in neither. *)
Lemma Split_two s c a b :
  Split s c = [a; b] →
  s = a +:+ String.String c b ∧
  occurrences c a = 0%nat ∧ occurrences c b = 0%nat.
Proof.
  revert a. induction s as [|x rest IH]; intros a Hs; simpl in Hs; [done|].
  destruct (Ascii.eqb x c) eqn:Hx.
  - apply Ascii.eqb_eq in Hx as ->. injection Hs as <- Hs.
    pose proof (Split_length rest c) as Hl. rewrite Hs in Hl. simpl in Hl.
    apply Split_one in Hs as ->. simpl. split; [done|]. split; [done|lia].
  - destruct (Split rest c) as [|p ps] eqn:Hr; [done|].
    injection Hs as <- ->. destruct (IH p eq_refl) as (-> & Ha & Hb).
    simpl. rewrite Hx. done.
Qed.

(** X15. [preloadTagHandler] calls [PullImage] exactly when the tag holds
    one [":"], once, with the parts before and after it, and returns what
    the pull returns (wrapped when it is an error); a tag with no [":"] or
    with more than one is refused before anything is pulled. *)
Theorem preloadTagHandler_one_colon `{Docker} (tag : string) :
  (occurrences ":" tag = 1%nat →
   ∃ repo t,
     tag = repo +:+ ":" +:+ t ∧
     occurrences ":" repo = 0%nat ∧ occurrences ":" t = 0%nat ∧
     preloadTagHandler (inr tag)
     = (option_map (λ err, Errorf "trigger docker pull: %s" (Some err))
                   (PullImage repo t),
        [(repo, t)])) ∧
  (occurrences ":" tag ≠ 1%nat →
   preloadTagHandler (inr tag)
   = (Some (Errorf "failed to parse docker image tag" None), [])).
Proof.
  pose proof (Split_length tag ":") as Hl. unfold preloadTagHandler.
  split; intros Ho.
  - rewrite Ho in Hl.
    destruct (Split tag ":") as [|repo [|t [|? ?]]] eqn:Hs; try done.
    apply Split_two in Hs as (-> & Hr & Ht).
    exists repo, t. repeat split; try done.
    by destruct (PullImage repo t).
  - destruct (Split tag ":") as [|repo [|t [|? ?]]] eqn:Hs; try done.
    simpl in Hl. lia.
Qed.

Example preloadTagHandler_tags :
  @preloadTagHandler pulls (inr "repo/img:v1") = (None, [("repo/img", "v1")]) ∧
  @preloadTagHandler pulls (inr "registry:5000/img:v1")
  = (Some (@Errorf pulls "failed to parse docker image tag" None), []) ∧
  @preloadTagHandler pulls (inr "img")
  = (Some (@Errorf pulls "failed to parse docker image tag" None), []) ∧
  @preloadTagHandler pulls (inr "broken:v1")
  = (Some (@Errorf pulls "trigger docker pull: %s" (Some "no such image")),
     [("broken", "v1")]).
Proof. repeat split. Qed.

End preload_props.
